(** * The crash-collection test server of [spec-main/api-crash-reporter-spec.ts]

    A shallow embedding of [startServer] (the local HTTP endpoint the crash
    reporter uploads to), of the report self-check [checkReport] that its
    response callback awaits, and of the [afterTest]/[cleanup] harness.

    JavaScript runs the callbacks of one process one at a time, so the server
    is modelled as a state machine whose transitions are the callbacks of the
    source: the multiparty parse callback, the [res.end] flush callback, the
    resumption of the flush callback after [await checkReport(reportId)], and
    the calls [waitForCrash()] made by a test.  *)

From stdpp Require Import gmap strings list pretty.

Local Open Scope string_scope.
Local Open Scope list_scope.

(** ** Values exchanged with the collaborators *)

(** A field value of a decoded record.  The source declares the fields of
    [CrashInfo] as strings and reads them through [String(...)]: what
    multiparty hands the parse callback holds, for every field name, the array
    of the values submitted under that name. *)
Inductive JsValue :=
| JsString (s : string)
| JsArray (items : list string).

(** [CrashInfo]: the decoded form fields, a JS object used as a map from field
    name to field value.  A field the type marks [undefined] is a missing key. *)
Abbreviation CrashInfo := (gmap string JsValue).

(** A record whose fields are all strings. *)
Abbreviation StringFields := (gmap string string).

(** The names every plain object inherits from [Object.prototype].  A
    property read [record[name]] with one of these names finds the inherited
    member when the record has no field of its own; with any other name it is
    the lookup of the field. *)
Definition object_prototype_names : list string :=
  ["constructor"; "hasOwnProperty"; "isPrototypeOf"; "propertyIsEnumerable";
   "toLocaleString"; "toString"; "valueOf"; "__proto__";
   "__defineGetter__"; "__defineSetter__"; "__lookupGetter__";
   "__lookupSetter__"].

(** Modelled from the library: [form.parse] of multiparty is not in the
    source.  For every field part of the body, in order, it appends the value
    to the array kept under the part's name, creating the array at the first
    value: [fields[name] = fields[name] || []; fields[name].push(value)]. *)
Definition add_field (fields : CrashInfo) (part : string * string) : CrashInfo :=
  let values :=
    match fields !! part.1 with
    | Some (JsArray items) => items
    | _ => []
    end in
  <[part.1 := JsArray (values ++ [part.2])]> fields.

Definition multiparty_fields (parts : list (string * string)) : CrashInfo :=
  foldl add_field ∅ parts.

(** The values submitted under [name], in the order of the body. *)
Definition values_of (name : string) (parts : list (string * string))
  : list string :=
  (filter (λ part, part.1 = name) parts).*2.

(** [Array.prototype.join] with its default separator, on strings. *)
Fixpoint join_comma (items : list string) : string :=
  match items with
  | [] => ""
  | item :: rest =>
      match rest with
      | [] => item
      | _ :: _ => item +:+ "," +:+ join_comma rest
      end
  end.

(** [String(v)] for a string, an array of strings or [undefined]. *)
Definition js_String (v : option JsValue) : string :=
  match v with
  | None => "undefined"
  | Some (JsString s) => s
  | Some (JsArray items) => join_comma items
  end.

(** A JS value that is either a [CrashInfo] or [undefined] (the [fields]
    argument of the parse callback is [undefined] when the decode failed). *)
Abbreviation Fields := (option CrashInfo).

(** The [error] argument of a callback: [null] or an Error with its message. *)
Abbreviation JsError := (option string).

(** One entry of the crash reporter's upload database. *)
Record Report := { id : string; date : Z }.

(** What [crashReporter.getLastCrashReport()] and
    [crashReporter.getUploadedReports()] answer at one moment. *)
Record ReporterView := {
  getLastCrashReport : option Report;
  getUploadedReports : list Report
}.

(** The crash reporter is an external collaborator: [Reporter] gives its
    answer at the n-th query made by one run of [checkReport]. *)
Abbreviation Reporter := (nat → ReporterView).

(** ** [waitForCrashReport] and [checkReport] *)

Inductive CheckResult :=
| CheckPassed
| CheckThrew (message : string).

(** [for (let times = 0; times < 10; times++)]: [left] counts the polls that
    remain, [tick] the queries made so far.  Returns the number of queries made
    when a report was seen, [None] for [throw new Error(...)]. *)
Fixpoint waitForCrashReport_from (cr : Reporter) (left tick : nat) : option nat :=
  match left with
  | O => None
  | S left' =>
      match getLastCrashReport (cr tick) with
      | Some _ => Some (S tick)
      | None => waitForCrashReport_from cr left' (S tick)
      end
  end.

Definition waitForCrashReport (cr : Reporter) : option nat :=
  waitForCrashReport_from cr 10 0.

(** [expect(a).to.equal(b)] on strings. *)
Definition expect_equal (a b : string) : bool := bool_decide (a = b).

Definition checkReport (cr : Reporter) (reportId : string) : CheckResult :=
  match waitForCrashReport cr with
  | None => CheckThrew "No crash report available"
  | Some t =>
      match getLastCrashReport (cr t) with
      | None => CheckThrew "TypeError: getLastCrashReport() is null"
      | Some last =>
          if negb (expect_equal (id last) reportId)
          then CheckThrew "AssertionError: last report id"
          else
            match getUploadedReports (cr (S t)) with
            | [] => CheckThrew "AssertionError: uploaded reports empty"
            | _ :: _ =>
                match getUploadedReports (cr (S (S t))) with
                | [] => CheckThrew "TypeError: getUploadedReports()[0] is undefined"
                | first :: _ =>
                    if expect_equal (id first) reportId
                    then CheckPassed
                    else CheckThrew "AssertionError: first uploaded report id"
                end
            end
      end
  end.

(** ** The server created by one call of [startServer] *)

Module Server.

(** The promise returned by one [waitForCrash()] call. *)
Inductive PromiseState :=
| Pending
| Resolved (crash : Fields).

(** What the uploading client receives. *)
Record Response := { statusCode : Z; body : string }.

(** Where the handler of one request stands after its parse callback
    returned normally.  Both closures capture [fields] and [reportId]. *)
Inductive Phase :=
| Flushing (fields : Fields) (reportId : string)
| Checking (fields : Fields) (reportId : string).

(** Observable actions, in the order the server performs them.  A request is
    named by the index its parse callback pushed to in [crashes]. *)
Inductive Effect :=
| Pushed (req : nat) (fields : Fields)
| Threw (req : nat) (message : string)
| Responded (req : nat) (response : Response)
| CheckRejected (req : nat) (message : string)
| SocketDestroyed (req : nat)
| Emitted (req : nat) (fields : Fields)
| ResolveCalled (promise : nat) (crash : Fields).

Record State := {
  crashes : list Fields;
  listeners : list nat;
  promises : list PromiseState;
  inflight : gmap nat Phase;
  trace : list Effect
}.

(** [const crashes = []; const emitter = new EventEmitter]. *)
Definition init : State :=
  {| crashes := []; listeners := []; promises := [];
     inflight := ∅; trace := [] |}.

(** [function getCrashes() { return crashes }]: the array itself. *)
Definition getCrashes (s : State) : list Fields := crashes s.

(** [new Promise(resolve => emitter.once('crash', crash => resolve(crash)))]:
    a fresh pending promise, and one more one-shot listener that resolves it. *)
Definition waitForCrash (s : State) : State * nat :=
  let p := length (promises s) in
  ({| crashes := crashes s;
      listeners := listeners s ++ [p];
      promises := promises s ++ [Pending];
      inflight := inflight s;
      trace := trace s |}, p).

(** [resolve(crash)]: settles a pending promise, does nothing to a settled one. *)
Definition resolve (p : nat) (crash : Fields) (ps : list PromiseState)
  : list PromiseState :=
  match ps !! p with
  | Some Pending => <[p := Resolved crash]> ps
  | _ => ps
  end.

(** The calls made by [emitter.emit('crash', crash)] to the listeners
    registered with [once], in registration order. *)
Fixpoint call_listeners (ls : list nat) (crash : Fields)
    (ps : list PromiseState) (tr : list Effect)
  : list PromiseState * list Effect :=
  match ls with
  | [] => (ps, tr)
  | p :: ls' =>
      call_listeners ls' crash (resolve p crash ps) (tr ++ [ResolveCalled p crash])
  end.

(** [emitter.emit('crash', fields)]: every [once] listener is removed and called. *)
Definition emit (req : nat) (crash : Fields) (s : State) : State :=
  let '(ps, tr) :=
    call_listeners (listeners s) crash (promises s) (trace s ++ [Emitted req crash]) in
  {| crashes := crashes s;
     listeners := [];
     promises := ps;
     inflight := inflight s;
     trace := tr |}.

Definition reportId : string := "abc-123-def-456-abc-789-abc-123-abcd".

(** [res.end(data, cb)] on a response whose [statusCode] was never assigned:
    Node's default status is 200. *)
Definition res_end (data : string) : Response :=
  {| statusCode := 200%Z; body := data |}.

Inductive Outcome :=
| Returned
| Thrown (message : string).

(** The callback given to [form.parse]:
<<
      crashes.push(fields)
      if (error) throw error
      const reportId = '...'
      res.end(reportId, async () => { ... })
>> *)
Definition parseCallback (error : JsError) (fields : Fields) (s : State)
  : State * Outcome :=
  let req := length (crashes s) in
  let pushed := crashes s ++ [fields] in
  match error with
  | Some message =>
      ({| crashes := pushed;
          listeners := listeners s;
          promises := promises s;
          inflight := inflight s;
          trace := trace s ++ [Pushed req fields; Threw req message] |},
       Thrown message)
  | None =>
      ({| crashes := pushed;
          listeners := listeners s;
          promises := promises s;
          inflight := <[req := Flushing fields reportId]> (inflight s);
          trace := trace s ++ [Pushed req fields; Responded req (res_end reportId)] |},
       Returned)
  end.

(** The flush callback of [res.end] starts: it calls [checkReport(reportId)]
    and suspends at the [await]. *)
Definition flushCallback (req : nat) (s : State) : State :=
  match inflight s !! req with
  | Some (Flushing fields rid) =>
      {| crashes := crashes s;
         listeners := listeners s;
         promises := promises s;
         inflight := <[req := Checking fields rid]> (inflight s);
         trace := trace s |}
  | _ => s
  end.

(** The flush callback resumes after [await checkReport(reportId)]:
<<
        req.socket.destroy()
        emitter.emit('crash', fields)
>>
    or, when [checkReport] rejected, the async callback rejects there and
    runs neither statement. *)
Definition resumeCallback (req : nat) (cr : Reporter) (s : State) : State :=
  match inflight s !! req with
  | Some (Checking fields rid) =>
      let rest := delete req (inflight s) in
      match checkReport cr rid with
      | CheckThrew message =>
          {| crashes := crashes s;
             listeners := listeners s;
             promises := promises s;
             inflight := rest;
             trace := trace s ++ [CheckRejected req message] |}
      | CheckPassed =>
          emit req fields
            {| crashes := crashes s;
               listeners := listeners s;
               promises := promises s;
               inflight := rest;
               trace := trace s ++ [SocketDestroyed req] |}
      end
  | _ => s
  end.

(** The callbacks the event loop can run on one server. *)
Inductive Event :=
| Parsed (error : JsError) (fields : Fields)
| Flushed (req : nat)
| Resumed (req : nat) (cr : Reporter)
| Wait.

Definition step (s : State) (e : Event) : State :=
  match e with
  | Parsed error fields => fst (parseCallback error fields s)
  | Flushed req => flushCallback req s
  | Resumed req cr => resumeCallback req cr s
  | Wait => fst (waitForCrash s)
  end.

Definition run (s : State) (es : list Event) : State := foldl step s es.

(** One upload handled from decode to the end of its flush callback, with
    nothing else running in between. *)
Definition upload (error : JsError) (fields : Fields) (cr : Reporter) (s : State)
  : State :=
  let req := length (crashes s) in
  run s [Parsed error fields; Flushed req; Resumed req cr].

(** The value a promise was resolved with, if it was. *)
Definition resolution (p : nat) (s : State) : option Fields :=
  match promises s !! p with
  | Some (Resolved crash) => Some crash
  | _ => None
  end.

(** *** Observations on events and traces *)

(** [getCrashes()[req][name]], when entry [req] is a record. *)
Definition field (req : nat) (name : string) (s : State) : option JsValue :=
  match getCrashes s !! req with
  | Some (Some record) => record !! name
  | _ => None
  end.

(** [n] uploads handled one after the other, each with its own reporter. *)
Definition uploads (s : State) (us : list (CrashInfo * Reporter)) : State :=
  foldl (λ acc u, upload None (Some u.1) u.2 acc) s us.

(** The records a list of events pushes, in order. *)
Definition pushed_by (e : Event) : list Fields :=
  match e with
  | Parsed _ fields => [fields]
  | _ => []
  end.

Definition parsed_fields (es : list Event) : list Fields :=
  concat (map pushed_by es).

(** An event is a callback of request [req]'s own handler. *)
Definition targets (req : nat) (e : Event) : bool :=
  match e with
  | Flushed r | Resumed r _ => bool_decide (r = req)
  | _ => false
  end.

Definition is_emission (e : Effect) : option Fields :=
  match e with
  | Emitted _ fields => Some fields
  | _ => None
  end.

(** The records emitted on the ['crash'] channel in a trace, in order. *)
Definition emissions (tr : list Effect) : list Fields :=
  omap is_emission tr.

Definition resolves (p : nat) (e : Effect) : bool :=
  match e with
  | ResolveCalled q _ => bool_decide (q = p)
  | _ => false
  end.

(** How many times [resolve] of promise [p] was called in a trace. *)
Definition resolve_calls (p : nat) (tr : list Effect) : nat :=
  length (filter (λ e, resolves p e = true) tr).

(** The listeners are distinct pending promises. *)
Definition listeners_ok (s : State) : Prop :=
  NoDup (listeners s) ∧ ∀ p, p ∈ listeners s → promises s !! p = Some Pending.

(** *** Invariants of the states reachable from [init] *)

Definition phase_fields (ph : Phase) : Fields :=
  match ph with
  | Flushing fields _ | Checking fields _ => fields
  end.

Record Inv (s : State) : Prop := {
  inv_listeners : listeners_ok s;
  inv_resolved : ∀ q crash,
    ResolveCalled q crash ∈ trace s → (q < length (promises s))%nat;
  inv_closures : ∀ req ph,
    inflight s !! req = Some ph → crashes s !! req = Some (phase_fields ph);
  inv_emitted : ∀ req crash,
    Emitted req crash ∈ trace s → crashes s !! req = Some crash
}.

(** The promise [p] of one [waitForCrash()] call, in a state whose trace
    extends the trace [tr0] at the time of the call: either it is still
    listening and pending and nothing was emitted since, or it was resolved,
    once, with the first record emitted since. *)
Definition waiter_ok (tr0 : list Effect) (p : nat) (t : State) : Prop :=
  ∃ new, trace t = tr0 ++ new ∧
    ((p ∈ listeners t ∧ promises t !! p = Some Pending ∧
      emissions new = [] ∧ resolve_calls p (trace t) = 0%nat)
     ∨ ((p ∉ listeners t) ∧
        ∃ crash, (promises t !! p = Some (Resolved crash) ∧
                  head (emissions new) = Some crash ∧
                  resolve_calls p (trace t) = 1%nat))).

(** The record of the single-crash round trip, as multiparty decodes the
    upload with the fields prod = Electron and ver = 1.2.3. *)
Definition electron_crash : CrashInfo :=
  multiparty_fields [("prod", "Electron"); ("ver", "1.2.3")].

(** A crash reporter that has recorded the upload under [reportId]. *)
Definition recorded : Reporter :=
  λ _, {| getLastCrashReport := Some {| id := reportId; date := 0 |};
          getUploadedReports := [{| id := reportId; date := 0 |}] |}.

(** A crash reporter that has no report, however often it is asked. *)
Definition silent : Reporter :=
  λ _, {| getLastCrashReport := None; getUploadedReports := [] |}.

End Server.

(** ** The process: [crashReporterPort], [startServer], [afterTest], [cleanup] *)

Module Harness.

(** The options [startServer] passes to [crashReporter.start]. *)
Record StartOptions := { companyName : string; submitURL : string }.

(** An [http.Server] as the harness sees it: the port of [server.address()]
    and whether its listener is open. *)
Record HttpServer := { port : Z; listening : bool }.

Record Process := {
  crashReporterPort : Z;
  started : list StartOptions;
  servers : list HttpServer;
  afterTest : list nat
}.

(** [let crashReporterPort = 0] and [const afterTest = []] at module load;
    [started] logs the calls of [crashReporter.start] made by [startServer],
    [afterTest] holds the closures [() => { server.close() }], each named by
    the server it captured. *)
Definition init : Process :=
  {| crashReporterPort := 0; started := []; servers := []; afterTest := [] |}.

Definition bound_ports (p : Process) : list Z :=
  port <$> filter (λ srv, listening srv = true) (servers p).

Definition valid_port (n : Z) : bool := ((1 <=? n) && (n <=? 65535))%Z.

(** Modelled from the spec: the TCP bind behind [server.listen(port,
    '127.0.0.1', cb)], which is the operating system's and not in the source.
    "a port (0 = ephemeral, OS-assigned)", "Fails with BindError if the port
    is already in use or the address is invalid".  [os_pick] is the port the
    operating system assigns to a request for port 0. *)
Definition listen (requested os_pick : Z) (bound : list Z) : option Z :=
  let chosen := if (requested =? 0)%Z then os_pick else requested in
  if valid_port chosen && negb (bool_decide (chosen ∈ bound))
  then Some chosen
  else None.

Inductive CloseReport :=
| CloseOk
| ErrServerNotRunning.

(** Modelled from the spec: [server.close(cb?)] of Node's [http.Server], not
    in the source.  "Closes the listener and releases the bound port.
    Idempotent: calling twice must not fail."  A close of a server that is not
    listening is reported to the optional callback only. *)
Definition server_close (srv : HttpServer) : HttpServer * CloseReport :=
  if listening srv
  then ({| port := port srv; listening := false |}, CloseOk)
  else (srv, ErrServerNotRunning).

(** [() => { server.close() }]: no callback is passed, the report is dropped. *)
Definition close_closure (sid : nat) (p : Process) : Process :=
  match servers p !! sid with
  | Some srv =>
      {| crashReporterPort := crashReporterPort p;
         started := started p;
         servers := <[sid := (server_close srv).1]> (servers p);
         afterTest := afterTest p |}
  | None => p
  end.

(** [cleanup]: runs every closure of [afterTest] in order (none returns a
    promise), then [afterTest.length = 0]. *)
Definition cleanup (p : Process) : Process :=
  let p' := foldl (λ acc sid, close_closure sid acc) p (afterTest p) in
  {| crashReporterPort := crashReporterPort p';
     started := started p';
     servers := servers p';
     afterTest := [] |}.

Definition start_options (bound : Z) : StartOptions :=
  {| companyName := "Umbrella Corporation";
     submitURL := "http://127.0.0.1:" +:+ pretty bound |}.

(** A [startServer] call that nothing interrupts, as when the test awaits it
    before it does anything else: it listens on [crashReporterPort] and, as
    soon as the listen callback has resumed it, reads the bound port back,
    starts the crash reporter and fixes the port when [crashReporterPort] is
    still 0, registers the close closure, and returns the port.  [None]: the
    listen callback is never called and the [await] never returns.  The two
    halves of the call, with other calls running between them, are
    [Calls.startServer_listen] and [Calls.startServer_resume]. *)
Definition startServer (os_pick : Z) (p : Process) : option (Process * Z) :=
  match listen (crashReporterPort p) os_pick (bound_ports p) with
  | None => None
  | Some bound =>
      let sid := length (servers p) in
      let first := (crashReporterPort p =? 0)%Z in
      Some ({| crashReporterPort := if first then bound else crashReporterPort p;
               started := if first then started p ++ [start_options bound]
                          else started p;
               servers := servers p ++ [{| port := bound; listening := true |}];
               afterTest := afterTest p ++ [sid] |},
            bound)
  end.

(** What a test run does with the harness when its [startServer] calls do
    not overlap: each call has returned, or hangs for good, before the next
    operation. *)
Inductive Op :=
| StartServer (os_pick : Z)
| Cleanup.

(** One operation; the second component is the port [startServer] returned. *)
Definition exec (p : Process) (op : Op) : Process * list Z :=
  match op with
  | StartServer os_pick =>
      match startServer os_pick p with
      | Some (p', bound) => (p', [bound])
      | None => (p, [])
      end
  | Cleanup => (cleanup p, [])
  end.

Definition run (p : Process) (ops : list Op) : Process :=
  foldl (λ acc op, (exec acc op).1) p ops.

(** The ports returned by the [startServer] calls of a run, in order. *)
Fixpoint returned_ports (p : Process) (ops : list Op) : list Z :=
  match ops with
  | [] => []
  | op :: ops' => (exec p op).2 ++ returned_ports (exec p op).1 ops'
  end.

(** What holds of every process state a run reaches: the crash reporter was
    started exactly when a port is fixed, and with that port; every server
    was bound to the fixed port; only the server created last can still be
    listening, and a listening server has its close closure registered. *)
Record ProcessInv (p : Process) : Prop := {
  pinv_started :
    (crashReporterPort p = 0%Z ∧ started p = []) ∨
    (crashReporterPort p ≠ 0%Z ∧ started p = [start_options (crashReporterPort p)]);
  pinv_ports : ∀ i srv,
    servers p !! i = Some srv →
    port srv = crashReporterPort p ∧ valid_port (port srv) = true;
  pinv_last : ∀ i srv,
    servers p !! i = Some srv → listening srv = true → S i = length (servers p);
  pinv_registered : ∀ i srv,
    servers p !! i = Some srv → listening srv = true → i ∈ afterTest p
}.

End Harness.

(** ** [startServer] calls that overlap *)

Module Calls.
Import Harness.

(** The process, and the [startServer] calls that are suspended at
    [await new Promise(resolve => server.listen(..., () => resolve()))] after
    a listen that succeeded, each named by its server. *)
Record World := { process : Process; suspended : list nat }.

Definition init : World := {| process := Harness.init; suspended := [] |}.

(** The first half of [startServer]: the server is created and listens on
    [crashReporterPort] as it is now, and the call suspends at the [await].
    When the bind fails the listen callback is never called: nothing is
    bound and the call is never resumed. *)
Definition startServer_listen (os_pick : Z) (w : World) : World :=
  let p := process w in
  match listen (crashReporterPort p) os_pick (bound_ports p) with
  | None => w
  | Some bound =>
      {| process :=
           {| crashReporterPort := crashReporterPort p;
              started := started p;
              servers := servers p ++ [{| port := bound; listening := true |}];
              afterTest := afterTest p |};
         suspended := suspended w ++ [length (servers p)] |}
  end.

(** The second half of [startServer], run when the suspended call of server
    [sid] resumes:
<<
  const port = (server.address() as AddressInfo).port
  if (crashReporterPort === 0) {
    crashReporter.start({ ..., submitURL: 'http://127.0.0.1:' + port })
    crashReporterPort = port
  }
  afterTest.push(() => { server.close() })
  return { getCrashes, port, waitForCrash }
>>
    The second component is the port returned; [None] when no call of
    server [sid] is suspended. *)
Definition startServer_resume (sid : nat) (w : World) : World * option Z :=
  let p := process w in
  if decide (sid ∈ suspended w) then
    match servers p !! sid with
    | Some srv =>
        let bound := port srv in
        let first := (crashReporterPort p =? 0)%Z in
        ({| process :=
              {| crashReporterPort := if first then bound else crashReporterPort p;
                 started := if first then started p ++ [start_options bound]
                            else started p;
                 servers := servers p;
                 afterTest := afterTest p ++ [sid] |};
            suspended := filter (λ other, other ≠ sid) (suspended w) |},
         Some bound)
    | None => (w, None)
    end
  else (w, None).

(** What the event loop can run next. *)
Inductive Step :=
| Listen (os_pick : Z)
| Resume (sid : nat)
| Clean.

Definition step (w : World) (st : Step) : World :=
  match st with
  | Listen os_pick => startServer_listen os_pick w
  | Resume sid => (startServer_resume sid w).1
  | Clean => {| process := cleanup (process w); suspended := suspended w |}
  end.

Definition run (w : World) (sts : list Step) : World := foldl step w sts.

(** The step resumes the call of server [sid]. *)
Definition resumes (sid : nat) (st : Step) : bool :=
  match st with
  | Resume other => bool_decide (other = sid)
  | _ => false
  end.

(** What holds of every world a run reaches: the crash reporter was started
    exactly when a port is fixed, once and with that port; every server has a
    valid port; every suspended call has its server. *)
Record WorldInv (w : World) : Prop := {
  winv_started :
    (crashReporterPort (process w) = 0%Z ∧ started (process w) = []) ∨
    (crashReporterPort (process w) ≠ 0%Z ∧
     started (process w) = [start_options (crashReporterPort (process w))]);
  winv_ports : ∀ i srv,
    servers (process w) !! i = Some srv → valid_port (port srv) = true;
  winv_suspended : ∀ sid,
    sid ∈ suspended w → is_Some (servers (process w) !! sid)
}.

(** The call of server [sid] is suspended and its server was bound to [b]. *)
Definition held (sid : nat) (b : Z) (w : World) : Prop :=
  sid ∈ suspended w ∧
  ∃ srv, servers (process w) !! sid = Some srv ∧ port srv = b.

End Calls.

(** ** The helpers of the tests *)

Module Helpers.

(** *** [stitchLongCrashParam] *)

(** The value of [crash[key]] when it is truthy, for a record of string
    fields and a [key] that is not in [object_prototype_names]: a missing key
    ([undefined]) and the empty string are falsy. *)
Definition truthy (v : option string) : option string :=
  match v with
  | Some s => if decide (s = "") then None else Some s
  | None => None
  end.

(** The template literal [`${paramKey}__${chunk}`]. *)
Definition chunk_key (paramKey : string) (chunk : nat) : string :=
  paramKey +:+ "__" +:+ pretty chunk.

(** The [while] loop, started at [chunk] with [stitched] collected so far.
    [None]: the loop is still running after [fuel] iterations. *)
Fixpoint stitch_from (fuel : nat) (crash : StringFields) (paramKey : string)
    (chunk : nat) (stitched : string) : option string :=
  match fuel with
  | O => None
  | S fuel' =>
      match truthy (crash !! chunk_key paramKey chunk) with
      | Some part =>
          stitch_from fuel' crash paramKey (S chunk) (stitched +:+ part)
      | None => Some stitched
      end
  end.

(** [stitchLongCrashParam(crash, paramKey)], its loop run for one iteration
    more than the record has fields. *)
Definition stitchLongCrashParam (crash : StringFields) (paramKey : string)
  : option string :=
  match truthy (crash !! paramKey) with
  | Some whole => Some whole
  | None => stitch_from (S (size crash)) crash paramKey 1 ""
  end.

Definition concat_strings (parts : list string) : string :=
  foldr String.app "" parts.

(** *** The newest report of [getUploadedReports()] *)

(** The accumulator of the [reduce]; no [timestamp] stands for [-Infinity],
    no [report] for the missing property.  A report's [date] is the number
    [new Date(cur.date).getTime()] gives for it. *)
Record Newest := { timestamp : option Z; report : option Report }.

Definition newer (acc : Newest) (cur : Report) : Newest :=
  let stamp := date cur in
  let later :=
    match timestamp acc with
    | None => true
    | Some t => (t <? stamp)%Z
    end in
  if later then {| timestamp := Some stamp; report := Some cur |} else acc.

Definition newestReport (reports : list Report) : Newest :=
  foldl newer {| timestamp := None; report := None |} reports.

(** What the accumulator of the [reduce] holds after it has gone through
    [reports]: the start value, or the first report of the latest date. *)
Definition newest_of (reports : list Report) (acc : Newest) : Prop :=
  (reports = [] ∧ acc = {| timestamp := None; report := None |}) ∨
  ∃ i r, reports !! i = Some r ∧
         acc = {| timestamp := Some (date r); report := Some r |} ∧
         (∀ x, x ∈ reports → (date x ≤ date r)%Z) ∧
         (∀ j x, (j < i)%nat → reports !! j = Some x → (date x < date r)%Z).

(** *** [checkCrash] *)

(** What the test process reads from its environment. *)
Record TestEnv := {
  versions_electron : string;
  process_platform : string;
  app_getVersion : string
}.

(** [expect(v).to.be.undefined()]. *)
Definition is_undefined (v : option JsValue) : bool :=
  match v with
  | None => true
  | Some _ => false
  end.

(** A [String(...)] reading that equals the constant [expected] comes from
    the string itself or from the array that holds just it. *)
Definition reads_as (v : option JsValue) (expected : string) : Prop :=
  v = Some (JsString expected) ∨ v = Some (JsArray [expected]).

Fixpoint has_comma (s : string) : bool :=
  match s with
  | EmptyString => false
  | String c rest => bool_decide (String c "" = ",") || has_comma rest
  end.

(** The expectations of [checkCrash] in source order, each with the field it
    is about and whether it holds. *)
Definition expectations (env : TestEnv) (expectedProcessType : string)
    (fields : CrashInfo) : list (string * bool) :=
  let eq name expected :=
    (name, expect_equal (js_String (fields !! name)) expected) in
  [ eq "prod" "Electron";
    eq "ver" (versions_electron env);
    eq "process_type" expectedProcessType;
    eq "platform" (process_platform env);
    eq "extra1" "extra1";
    eq "extra2" "extra2";
    ("extra3", is_undefined (fields !! "extra3"));
    eq "_productName" "Zombies";
    eq "_companyName" "Umbrella Corporation";
    eq "_version" (app_getVersion env) ].

(** [checkCrash(expectedProcessType, fields)]: [None] when it returns, the
    field of the first expectation that throws otherwise. *)
Definition checkCrash (env : TestEnv) (expectedProcessType : string)
    (fields : CrashInfo) : option string :=
  fst <$> head (filter (λ x, x.2 = false) (expectations env expectedProcessType fields)).

Definition checked_fields : list string :=
  ["prod"; "ver"; "process_type"; "platform"; "extra1"; "extra2"; "extra3";
   "_productName"; "_companyName"; "_version"].

(** *** Waiting for a dump file *)

(** [/\.dmp$/.test(file)]. *)
Definition is_dmp (file : string) : bool :=
  let n := String.length file in
  (4 <=? n)%nat && bool_decide (String.substring (n - 4) 4 file = ".dmp").

(** The dump files collected before the crash: [fs.readdir] answered with an
    error ([None]) or with the files of the directory. *)
Definition existing_dumps (listing : option (list string)) : gset string :=
  match listing with
  | Some files => list_to_set (filter (λ file, is_dmp file = true) files)
  | None => ∅
  end.

(** [getDumps()] on one directory listing. *)
Definition getDumps (existingDumpFiles : gset string) (files : list string)
  : list string :=
  filter (λ file, is_dmp file = true ∧ file ∉ existingDumpFiles) files.

Inductive DumpResult :=
| DumpFound (path : string)
| DumpUndefined
| DumpRejected.

(** [dumpFileCreated]: [left] polls remain, the next is poll [i]; [readdir i]
    is what [fs.promises.readdir(crashesDir)] answers at poll [i] ([None]: it
    rejects), [join] is [path.join]. *)
Fixpoint dumpFileCreated_from (join : string → string → string)
    (crashesDir : string) (existingDumpFiles : gset string)
    (readdir : nat → option (list string)) (left i : nat) : DumpResult :=
  match left with
  | O => DumpUndefined
  | S left' =>
      match readdir i with
      | None => DumpRejected
      | Some files =>
          match getDumps existingDumpFiles files with
          | dump :: _ => DumpFound (join crashesDir dump)
          | [] =>
              dumpFileCreated_from join crashesDir existingDumpFiles readdir
                left' (S i)
          end
      end
  end.

Definition dumpFileCreated (join : string → string → string)
    (crashesDir : string) (existingDumpFiles : gset string)
    (readdir : nat → option (list string)) : DumpResult :=
  dumpFileCreated_from join crashesDir existingDumpFiles readdir 30 0.

End Helpers.

(** ** The effects of one request *)

Module Lifecycle.
Import Server.

(** The request an effect belongs to; a [resolve] call belongs to a promise. *)
Definition request_of (e : Effect) : option nat :=
  match e with
  | Pushed req _ | Threw req _ | Responded req _ | CheckRejected req _
  | SocketDestroyed req | Emitted req _ => Some req
  | ResolveCalled _ _ => None
  end.

(** The effects of request [req] in a trace, in order. *)
Definition handler_trace (req : nat) (tr : list Effect) : list Effect :=
  filter (λ e, request_of e = Some req) tr.

(** Where request [req] stands in state [s], read off its own effects: not
    decoded yet; thrown on a failed decode; answered and waiting for its
    flush callback to start or to resume; stopped by a rejected self-check;
    or torn down and emitted. *)
Definition stage (req : nat) (s : State) : Prop :=
  let own := handler_trace req (trace s) in
  ((length (crashes s) ≤ req)%nat ∧ own = [] ∧ inflight s !! req = None) ∨
  ∃ fields, crashes s !! req = Some fields ∧
    ((∃ message,
        own = [Pushed req fields; Threw req message] ∧
        inflight s !! req = None) ∨
     (own = [Pushed req fields; Responded req (res_end reportId)] ∧
      (inflight s !! req = Some (Flushing fields reportId) ∨
       inflight s !! req = Some (Checking fields reportId))) ∨
     (∃ message,
        own = [Pushed req fields; Responded req (res_end reportId);
               CheckRejected req message] ∧
        inflight s !! req = None) ∨
     (own = [Pushed req fields; Responded req (res_end reportId);
             SocketDestroyed req; Emitted req fields] ∧
      inflight s !! req = None)).

(** A crash reporter that answers every query with the same view. *)
Definition steady (view : ReporterView) : Reporter := λ _, view.

End Lifecycle.

(** ** Facts about the server's callbacks *)

Module ServerFacts.
Import Server.

Lemma call_listeners_trace ls crash ps tr :
  (call_listeners ls crash ps tr).2 = tr ++ map (λ p, ResolveCalled p crash) ls.
Proof.
  revert ps tr. induction ls as [|p ls IH]; intros ps tr; simpl.
  - by rewrite app_nil_r.
  - rewrite IH. by rewrite <- app_assoc.
Qed.

Lemma call_listeners_promises ls crash ps tr :
  (call_listeners ls crash ps tr).1 = foldl (λ acc p, resolve p crash acc) ps ls.
Proof.
  revert ps tr. induction ls as [|p ls IH]; intros ps tr; simpl; [done|].
  apply IH.
Qed.

Lemma emit_unfold req crash s :
  emit req crash s =
  {| crashes := crashes s;
     listeners := [];
     promises := foldl (λ acc p, resolve p crash acc) (promises s) (listeners s);
     inflight := inflight s;
     trace := (trace s ++ [Emitted req crash])
              ++ map (λ p, ResolveCalled p crash) (listeners s) |}.
Proof.
  unfold emit.
  pose proof (call_listeners_promises (listeners s) crash (promises s)
                (trace s ++ [Emitted req crash])) as Hps.
  pose proof (call_listeners_trace (listeners s) crash (promises s)
                (trace s ++ [Emitted req crash])) as Htr.
  destruct (call_listeners _ _ _ _) as [ps tr]; simpl in *.
  by subst.
Qed.

Lemma resolve_length p crash ps : length (resolve p crash ps) = length ps.
Proof.
  unfold resolve. destruct (ps !! p) as [[|]|]; try done.
  by rewrite length_insert.
Qed.

Lemma resolve_pending p crash ps :
  ps !! p = Some Pending → resolve p crash ps !! p = Some (Resolved crash).
Proof.
  intros H. unfold resolve. rewrite H.
  apply list_lookup_insert_eq. by eapply lookup_lt_Some.
Qed.

Lemma resolve_other p q crash ps :
  p ≠ q → resolve p crash ps !! q = ps !! q.
Proof.
  intros H. unfold resolve. destruct (ps !! p) as [[|]|]; try done.
  by apply list_lookup_insert_ne.
Qed.

Lemma resolve_all_other ls crash ps q :
  q ∉ ls → foldl (λ acc p, resolve p crash acc) ps ls !! q = ps !! q.
Proof.
  revert ps. induction ls as [|p ls IH]; intros ps Hq; simpl; [done|].
  rewrite IH by set_solver.
  apply resolve_other. set_solver.
Qed.

Lemma resolve_all_listener ls crash ps p :
  NoDup ls → p ∈ ls → ps !! p = Some Pending →
  foldl (λ acc q, resolve q crash acc) ps ls !! p = Some (Resolved crash).
Proof.
  revert ps. induction ls as [|q ls IH]; intros ps Hnd Hp Hpend; simpl.
  - by apply elem_of_nil in Hp.
  - apply NoDup_cons in Hnd as [Hq Hnd].
    apply elem_of_cons in Hp as [->|Hp].
    + rewrite resolve_all_other by done. by apply resolve_pending.
    + apply IH; [done..|].
      rewrite resolve_other; [done|]. intros ->. done.
Qed.

Lemma resolve_all_length ls crash ps :
  length (foldl (λ acc p, resolve p crash acc) ps ls) = length ps.
Proof.
  revert ps. induction ls as [|p ls IH]; intros ps; simpl; [done|].
  by rewrite IH, resolve_length.
Qed.

(** *** What each callback does to the components of the state *)

Lemma step_crashes s e : crashes (step s e) = crashes s ++ pushed_by e.
Proof.
  destruct e as [error fields|req|req cr|]; simpl.
  - unfold parseCallback. by destruct error.
  - unfold flushCallback. rewrite app_nil_r.
    by destruct (inflight s !! req) as [[]|].
  - unfold resumeCallback. rewrite app_nil_r.
    destruct (inflight s !! req) as [[]|]; try done.
    destruct (checkReport cr _); [|done].
    by rewrite emit_unfold.
  - by rewrite app_nil_r.
Qed.

Lemma run_crashes s es : crashes (run s es) = crashes s ++ parsed_fields es.
Proof.
  revert s. induction es as [|e es IH]; intros s; simpl.
  - by rewrite app_nil_r.
  - unfold run in IH. rewrite IH, step_crashes.
    unfold parsed_fields. simpl. by rewrite app_assoc.
Qed.

Lemma run_app s es1 es2 : run s (es1 ++ es2) = run (run s es1) es2.
Proof. apply foldl_app. Qed.

(** Callbacks of other requests leave the closure of request [req] alone. *)
Lemma step_inflight_other s e req :
  (req < length (crashes s))%nat → targets req e = false →
  inflight (step s e) !! req = inflight s !! req.
Proof.
  intros Hlt Ht.
  destruct e as [error fields|r|r cr|]; simpl in *.
  - unfold parseCallback. destruct error; simpl; [done|].
    apply lookup_insert_ne. lia.
  - apply bool_decide_eq_false in Ht.
    unfold flushCallback. destruct (inflight s !! r) as [[]|]; simpl; try done.
    by apply lookup_insert_ne.
  - apply bool_decide_eq_false in Ht.
    unfold resumeCallback. destruct (inflight s !! r) as [[]|]; simpl; try done.
    destruct (checkReport cr _); simpl.
    + rewrite emit_unfold. simpl. by apply lookup_delete_ne.
    + by apply lookup_delete_ne.
  - done.
Qed.

Lemma run_inflight_other s es req :
  (req < length (crashes s))%nat → forallb (λ e, negb (targets req e)) es = true →
  inflight (run s es) !! req = inflight s !! req.
Proof.
  revert s. induction es as [|e es IH]; intros s Hlt Hes; simpl in *; [done|].
  apply andb_true_iff in Hes as [He Hes]. apply negb_true_iff in He.
  unfold run in IH. rewrite IH; [by apply step_inflight_other| |done].
  rewrite step_crashes, length_app. lia.
Qed.

(** The trace only grows. *)
Lemma step_trace s e : ∃ new, trace (step s e) = trace s ++ new.
Proof.
  destruct e as [error fields|req|req cr|]; simpl.
  - unfold parseCallback. destruct error; simpl; eauto.
  - unfold flushCallback. exists [].
    rewrite app_nil_r. by destruct (inflight s !! req) as [[]|].
  - unfold resumeCallback.
    destruct (inflight s !! req) as [[]|]; try (exists []; by rewrite app_nil_r).
    destruct (checkReport cr _); simpl; [|eauto].
    rewrite emit_unfold. simpl. rewrite <- !app_assoc. eauto.
  - exists []. by rewrite app_nil_r.
Qed.

Lemma run_trace s es : ∃ new, trace (run s es) = trace s ++ new.
Proof.
  unfold run. revert s. induction es as [|e es IH]; intros s; simpl.
  - exists []. by rewrite app_nil_r.
  - destruct (step_trace s e) as [n1 H1].
    destruct (IH (step s e)) as [n2 H2].
    exists (n1 ++ n2). by rewrite H2, H1, app_assoc.
Qed.

(** *** The listeners stay distinct pending promises *)

Lemma listeners_ok_init : listeners_ok init.
Proof. split; [constructor|]. intros p Hp. by apply elem_of_nil in Hp. Qed.

Lemma listeners_ok_wait s : listeners_ok s → listeners_ok (waitForCrash s).1.
Proof.
  intros [Hnd Hpend]. split; simpl.
  - apply NoDup_app. split_and!; [done| |apply NoDup_singleton].
    intros p Hp Hp'. apply list_elem_of_singleton in Hp' as ->.
    apply Hpend, lookup_lt_Some in Hp. lia.
  - intros p [Hp|Hp]%elem_of_app.
    + rewrite lookup_app_l; [by apply Hpend|].
      by eapply lookup_lt_Some, Hpend.
    + apply list_elem_of_singleton in Hp as ->.
      by rewrite lookup_app_r, Nat.sub_diag.
Qed.

Lemma listeners_ok_step s e : listeners_ok s → listeners_ok (step s e).
Proof.
  intros Hok. destruct e as [error fields|req|req cr|]; simpl.
  - unfold parseCallback. by destruct error.
  - unfold flushCallback. by destruct (inflight s !! req) as [[]|].
  - unfold resumeCallback. destruct (inflight s !! req) as [[]|]; try done.
    destruct (checkReport cr _); [|done].
    rewrite emit_unfold. split; simpl; [constructor|].
    intros p Hp. by apply elem_of_nil in Hp.
  - by apply listeners_ok_wait.
Qed.

Lemma listeners_ok_run s es : listeners_ok s → listeners_ok (run s es).
Proof.
  revert s. induction es as [|e es IH]; intros s Hok; simpl; [done|].
  by apply IH, listeners_ok_step.
Qed.

(** *** The closure of a request between its callbacks *)

Lemma parseCallback_ok s fields :
  let req := length (crashes s) in
  let s1 := (parseCallback None fields s).1 in
  crashes s1 = crashes s ++ [fields] ∧
  listeners s1 = listeners s ∧ promises s1 = promises s ∧
  inflight s1 !! req = Some (Flushing fields reportId) ∧
  trace s1 = trace s ++ [Pushed req fields; Responded req (res_end reportId)].
Proof. simpl. split_and!; try done. apply lookup_insert_eq. Qed.

Lemma flushCallback_flushing s req fields rid :
  inflight s !! req = Some (Flushing fields rid) →
  let s' := flushCallback req s in
  crashes s' = crashes s ∧ listeners s' = listeners s ∧
  promises s' = promises s ∧ trace s' = trace s ∧
  inflight s' !! req = Some (Checking fields rid).
Proof.
  intros H. unfold flushCallback. rewrite H. simpl.
  split_and!; try done. apply lookup_insert_eq.
Qed.

(** From the parse callback to the moment the flush callback is about to
    resume, with callbacks of other requests and [waitForCrash] calls in
    between: the closure still holds the decoded fields and the identifier. *)
Lemma handler_suspended s fields es1 es2 :
  let req := length (crashes s) in
  forallb (λ e, negb (targets req e)) (es1 ++ es2) = true →
  let s1 := (parseCallback None fields s).1 in
  let s2 := run (flushCallback req (run s1 es1)) es2 in
  inflight s2 !! req = Some (Checking fields reportId) ∧
  (∃ new, trace s2 = trace s1 ++ new) ∧
  crashes s2 !! req = Some fields.
Proof.
  intros req Hes s1 s2.
  rewrite forallb_app in Hes. apply andb_true_iff in Hes as [Hes1 Hes2].
  destruct (parseCallback_ok s fields) as (Hc1 & _ & _ & Hin1 & _).
  fold req s1 in Hc1, Hin1.
  assert (Hlt1 : (req < length (crashes s1))%nat).
  { rewrite Hc1, length_app. simpl. lia. }
  assert (Hin1' : inflight (run s1 es1) !! req = Some (Flushing fields reportId)).
  { by rewrite run_inflight_other. }
  destruct (flushCallback_flushing _ _ _ _ Hin1') as (Hc2 & _ & _ & Htr2 & Hin2).
  assert (Hlt2 : (req < length (crashes (flushCallback req (run s1 es1))))%nat).
  { rewrite Hc2, run_crashes, length_app. lia. }
  split_and!.
  - unfold s2. by rewrite run_inflight_other.
  - destruct (run_trace s1 es1) as [n1 Hn1].
    destruct (run_trace (flushCallback req (run s1 es1)) es2) as [n2 Hn2].
    exists (n1 ++ n2). unfold s2. by rewrite Hn2, Htr2, Hn1, app_assoc.
  - unfold s2. rewrite run_crashes, Hc2, run_crashes, Hc1.
    rewrite <- !app_assoc. rewrite lookup_app_r by done.
    by rewrite Nat.sub_diag.
Qed.

(** *** Counting emissions and resolve calls in a trace *)

Lemma emissions_app tr1 tr2 : emissions (tr1 ++ tr2) = emissions tr1 ++ emissions tr2.
Proof. apply omap_app. Qed.

Lemma resolve_calls_app p tr1 tr2 :
  resolve_calls p (tr1 ++ tr2) = (resolve_calls p tr1 + resolve_calls p tr2)%nat.
Proof. unfold resolve_calls. by rewrite filter_app, length_app. Qed.

Lemma emissions_listeners crash ls :
  emissions (map (λ p, ResolveCalled p crash) ls) = [].
Proof. by induction ls. Qed.

Lemma resolve_calls_notin p crash ls :
  p ∉ ls → resolve_calls p (map (λ q, ResolveCalled q crash) ls) = 0%nat.
Proof.
  induction ls as [|q ls IH]; intros Hp; [done|].
  apply not_elem_of_cons in Hp as [Hne Hp].
  unfold resolve_calls in *. simpl.
  rewrite filter_cons_False; [by apply IH|].
  simpl. rewrite bool_decide_eq_true. congruence.
Qed.

Lemma resolve_calls_in p crash ls :
  NoDup ls → p ∈ ls → resolve_calls p (map (λ q, ResolveCalled q crash) ls) = 1%nat.
Proof.
  induction ls as [|q ls IH]; intros Hnd Hp.
  - by apply elem_of_nil in Hp.
  - apply NoDup_cons in Hnd as [Hq Hnd].
    change (resolve_calls p ([ResolveCalled q crash]
              ++ map (λ q, ResolveCalled q crash) ls) = 1%nat).
    rewrite resolve_calls_app.
    apply elem_of_cons in Hp as [->|Hp].
    + rewrite resolve_calls_notin by done.
      unfold resolve_calls. rewrite filter_cons_True; [done|].
      simpl. by rewrite bool_decide_eq_true.
    + rewrite IH by done.
      unfold resolve_calls. rewrite filter_cons_False; [done|].
      simpl. rewrite bool_decide_eq_true. intros ->. done.
Qed.

(** *** The invariants hold in every state reachable from [init] *)

Lemma Inv_init : Inv init.
Proof.
  split; [apply listeners_ok_init|..]; simpl.
  - intros q crash H. by apply elem_of_nil in H.
  - intros req ph H. by rewrite lookup_empty in H.
  - intros req crash H. by apply elem_of_nil in H.
Qed.

Lemma Inv_parse s error fields : Inv s → Inv (parseCallback error fields s).1.
Proof.
  intros [Hl Hr Hc He].
  assert (Hkeep : ∀ req v, crashes s !! req = Some v →
                           (crashes s ++ [fields]) !! req = Some v).
  { intros req v H. by apply lookup_app_l_Some. }
  unfold parseCallback. destruct error as [message|]; split; simpl; try done.
  - intros q crash [H|H]%elem_of_app; [by eapply Hr|].
    repeat (apply elem_of_cons in H as [H|H]; [done|]). by apply elem_of_nil in H.
  - intros req ph H. by apply Hkeep, Hc.
  - intros req crash [H|H]%elem_of_app; [by apply Hkeep, He|].
    repeat (apply elem_of_cons in H as [H|H]; [done|]). by apply elem_of_nil in H.
  - intros q crash [H|H]%elem_of_app; [by eapply Hr|].
    repeat (apply elem_of_cons in H as [H|H]; [done|]). by apply elem_of_nil in H.
  - intros req ph H. destruct (decide (req = length (crashes s))) as [->|Hne].
    + rewrite lookup_insert_eq in H. injection H as <-. simpl.
      by rewrite lookup_app_r, Nat.sub_diag.
    + rewrite lookup_insert_ne in H by done. by apply Hkeep, Hc.
  - intros req crash [H|H]%elem_of_app; [by apply Hkeep, He|].
    repeat (apply elem_of_cons in H as [H|H]; [done|]). by apply elem_of_nil in H.
Qed.

Lemma Inv_flush s req : Inv s → Inv (flushCallback req s).
Proof.
  intros [Hl Hr Hc He]. unfold flushCallback.
  destruct (inflight s !! req) as [[fields rid|]|] eqn:Hreq; try done.
  split; simpl; try done.
  intros r ph H. destruct (decide (r = req)) as [->|Hne].
  - rewrite lookup_insert_eq in H. injection H as <-.
    by apply (Hc _ _ Hreq).
  - rewrite lookup_insert_ne in H by done. by apply Hc.
Qed.

Lemma Inv_resume s req cr : Inv s → Inv (resumeCallback req cr s).
Proof.
  intros [Hl Hr Hc He]. unfold resumeCallback.
  destruct (inflight s !! req) as [[|fields rid]|] eqn:Hreq; try done.
  assert (Hdel : ∀ r ph, delete req (inflight s) !! r = Some ph →
                         crashes s !! r = Some (phase_fields ph)).
  { intros r ph H. apply lookup_delete_Some in H as [_ H]. by apply Hc. }
  destruct (checkReport cr rid) as [|message].
  - rewrite emit_unfold. split; simpl.
    + split; simpl; [constructor|]. intros p Hp. by apply elem_of_nil in Hp.
    + intros q crash. rewrite resolve_all_length.
      intros [[[H|H]%elem_of_app|H]%elem_of_app|H]%elem_of_app.
      * by eapply Hr.
      * apply list_elem_of_singleton in H. done.
      * apply list_elem_of_singleton in H. done.
      * apply list_elem_of_fmap in H as (p & [= -> _] & Hp).
        by eapply lookup_lt_Some, Hl.
    + done.
    + intros r crash.
      intros [[[H|H]%elem_of_app|H]%elem_of_app|H]%elem_of_app.
      * by apply He.
      * apply list_elem_of_singleton in H. done.
      * apply list_elem_of_singleton in H. injection H as -> ->.
        by apply (Hc _ _ Hreq).
      * apply list_elem_of_fmap in H as (p & Heq & Hp). done.
  - split; simpl; try done.
    + intros q crash [H|H]%elem_of_app; [by eapply Hr|].
      apply list_elem_of_singleton in H. done.
    + intros r crash [H|H]%elem_of_app; [by apply He|].
      apply list_elem_of_singleton in H. done.
Qed.

Lemma Inv_wait s : Inv s → Inv (waitForCrash s).1.
Proof.
  intros [Hl Hr Hc He]. split; simpl; try done.
  - by apply listeners_ok_wait.
  - intros q crash H. rewrite length_app. simpl.
    apply Hr in H. lia.
Qed.

Lemma Inv_step s e : Inv s → Inv (step s e).
Proof.
  intros H. destruct e; simpl.
  - by apply Inv_parse.
  - by apply Inv_flush.
  - by apply Inv_resume.
  - by apply Inv_wait.
Qed.

Lemma Inv_run s es : Inv s → Inv (run s es).
Proof.
  revert s. induction es as [|e es IH]; intros s H; simpl; [done|].
  by apply IH, Inv_step.
Qed.

(** *** A waiter is resolved once, by the first emission after its call *)

Lemma waiter_ok_quiet tr0 p t t' extra :
  waiter_ok tr0 p t →
  listeners t' = listeners t → promises t' = promises t →
  trace t' = trace t ++ extra →
  emissions extra = [] → resolve_calls p extra = 0%nat →
  waiter_ok tr0 p t'.
Proof.
  intros (new & Htr & Hcase) Hl Hp Ht He Hr.
  exists (new ++ extra). split; [by rewrite Ht, Htr, app_assoc|].
  rewrite Hl, Hp, Ht, emissions_app, resolve_calls_app, He, Hr, app_nil_r, Nat.add_0_r.
  destruct Hcase as [(?&?&?&?)|(?&crash&?&?&?)]; [left|right]; eauto 10.
Qed.

Lemma waiter_ok_emit tr0 p t req crash :
  listeners_ok t → waiter_ok tr0 p t →
  waiter_ok tr0 p
    (emit req crash
       {| crashes := crashes t; listeners := listeners t;
          promises := promises t; inflight := delete req (inflight t);
          trace := trace t ++ [SocketDestroyed req] |}).
Proof.
  intros [Hnd Hpend] (new & Htr & Hcase). rewrite emit_unfold. simpl.
  exists (new ++ [SocketDestroyed req; Emitted req crash]
              ++ map (λ q, ResolveCalled q crash) (listeners t)).
  split.
  { rewrite Htr. by rewrite <- !app_assoc. }
  right. split; [apply not_elem_of_nil|]. cbn [trace promises listeners].
  rewrite !resolve_calls_app, !emissions_app, emissions_listeners.
  change (resolve_calls p [SocketDestroyed req]) with 0%nat.
  change (resolve_calls p [Emitted req crash]) with 0%nat.
  change (emissions [SocketDestroyed req; Emitted req crash]) with [crash].
  rewrite app_nil_r, !Nat.add_0_r.
  destruct Hcase as [(Hin&Hp&He&Hr)|(Hin&old&Hp&He&Hr)].
  - exists crash. split_and!.
    + by apply resolve_all_listener.
    + by rewrite He.
    + by rewrite Hr, resolve_calls_in.
  - exists old. split_and!.
    + by rewrite resolve_all_other.
    + destruct (emissions new); [done|]. done.
    + by rewrite Hr, resolve_calls_notin.
Qed.

Lemma waiter_ok_step tr0 p t e :
  listeners_ok t → waiter_ok tr0 p t → waiter_ok tr0 p (step t e).
Proof.
  intros Hok Hw. destruct e as [error fields|req|req cr|]; simpl.
  - unfold parseCallback.
    destruct error; by eapply waiter_ok_quiet.
  - unfold flushCallback. by destruct (inflight t !! req) as [[]|].
  - unfold resumeCallback. destruct (inflight t !! req) as [[]|]; try done.
    destruct (checkReport cr _).
    + by apply waiter_ok_emit.
    + by eapply waiter_ok_quiet.
  - destruct Hw as (new & Htr & Hcase).
    exists new. split; [done|]. simpl.
    destruct Hcase as [(Hin&Hp&He&Hr)|(Hin&old&Hp&He&Hr)]; [left|right].
    + split_and!; try done; [set_solver|].
      by apply lookup_app_l_Some.
    + split.
      * apply lookup_lt_Some in Hp as Hlt.
        intros [H|H]%elem_of_app; [done|].
        apply list_elem_of_singleton in H. lia.
      * exists old. split_and!; try done. by apply lookup_app_l_Some.
Qed.

Lemma waiter_ok_run tr0 p t es :
  listeners_ok t → waiter_ok tr0 p t → waiter_ok tr0 p (run t es).
Proof.
  revert t. induction es as [|e es IH]; intros t Hok Hw; simpl; [done|].
  apply IH; [by apply listeners_ok_step|by apply waiter_ok_step].
Qed.

(** Right after [waitForCrash()] its promise is a pending listener. *)
Lemma waiter_ok_wait s :
  Inv s → waiter_ok (trace s) (waitForCrash s).2 (waitForCrash s).1.
Proof.
  intros [Hl Hr _ _]. exists []. split; [by rewrite app_nil_r|].
  left. simpl. split_and!; [set_solver| |done|].
  - by rewrite lookup_app_r, Nat.sub_diag.
  - unfold resolve_calls.
    destruct (filter _ (trace s)) as [|e l] eqn:Hf; [done|].
    assert (He : e ∈ filter (λ e, resolves (length (promises s)) e = true) (trace s)).
    { rewrite Hf. left. }
    apply list_elem_of_filter in He as [He1 He2].
    destruct e; simpl in He1; try done.
    apply bool_decide_eq_true in He1 as ->.
    apply Hr in He2. lia.
Qed.

(** *** The flush callback, resumed *)

Lemma resumeCallback_checking s req fields rid cr :
  inflight s !! req = Some (Checking fields rid) →
  listeners_ok s →
  let s' := resumeCallback req cr s in
  crashes s' = crashes s ∧
  match checkReport cr rid with
  | CheckPassed =>
      trace s' = trace s ++ [SocketDestroyed req; Emitted req fields]
                         ++ map (λ p, ResolveCalled p fields) (listeners s) ∧
      (∀ p, p ∈ listeners s → resolution p s' = Some fields) ∧
      listeners s' = []
  | CheckThrew message =>
      trace s' = trace s ++ [CheckRejected req message] ∧
      promises s' = promises s ∧
      listeners s' = listeners s
  end.
Proof.
  intros Hin [Hnd Hpend]. unfold resumeCallback. rewrite Hin.
  destruct (checkReport cr rid) as [|message]; [|done].
  rewrite emit_unfold. simpl. split_and!; try done.
  - by rewrite <- !app_assoc.
  - intros p Hp. unfold resolution. simpl.
    rewrite resolve_all_listener; auto.
Qed.

Lemma reachable_suspended es0 fields es1 es2 :
  let s := run init es0 in
  let req := length (crashes s) in
  let s1 := (parseCallback None fields s).1 in
  let s2 := run (flushCallback req (run s1 es1)) es2 in
  Inv s2.
Proof.
  intros s req s1 s2. unfold s2, s1, s.
  apply Inv_run, Inv_flush, Inv_run, Inv_parse, Inv_run, Inv_init.
Qed.

(** *** Several [waitForCrash()] calls in a row *)

Lemma run_waits s n :
  let s1 := run s (replicate n Wait) in
  crashes s1 = crashes s ∧ inflight s1 = inflight s ∧ trace s1 = trace s ∧
  listeners s1 = listeners s ++ seq (length (promises s)) n ∧
  promises s1 = promises s ++ replicate n Pending.
Proof.
  revert s. induction n as [|n IH]; intros s; simpl.
  - by rewrite !app_nil_r.
  - destruct (IH (waitForCrash s).1) as (Hc & Hi & Ht & Hl & Hp).
    unfold run in *. simpl in *.
    rewrite Hc, Hi, Ht, Hl, Hp. split_and!; try done.
    + rewrite length_app. simpl. rewrite Nat.add_1_r. by rewrite <- app_assoc.
    + by rewrite <- app_assoc.
Qed.

Lemma emissions_elem crash tr :
  crash ∈ emissions tr → ∃ req, Emitted req crash ∈ tr.
Proof.
  unfold emissions. rewrite list_elem_of_omap.
  intros (e & He & Hem). destruct e; simpl in Hem; try done.
  injection Hem as ->. eauto.
Qed.

(** *** What multiparty decodes *)

Lemma values_of_snoc name parts part :
  values_of name (parts ++ [part])
  = values_of name parts ++ (if decide (part.1 = name) then [part.2] else []).
Proof.
  unfold values_of. rewrite filter_app, fmap_app. f_equal.
  rewrite filter_cons, filter_nil. by destruct (decide (part.1 = name)).
Qed.

(** The record holds, under every name, the array of the values submitted
    under it, and nothing under a name that was not submitted. *)
Lemma multiparty_fields_lookup parts name :
  multiparty_fields parts !! name =
  match values_of name parts with
  | [] => None
  | values => Some (JsArray values)
  end.
Proof.
  unfold multiparty_fields.
  induction parts as [|part parts IH] using rev_ind; [done|].
  rewrite foldl_app, values_of_snoc. simpl. unfold add_field at 1.
  destruct (decide (part.1 = name)) as [<-|Hne].
  - rewrite lookup_insert_eq, IH.
    destruct (values_of part.1 parts) as [|v vs]; [done|]. done.
  - rewrite lookup_insert_ne, IH, app_nil_r by done. done.
Qed.

End ServerFacts.

(** ** The claims about uploads and the record log *)

Module UploadClaims.
Import Server ServerFacts.

(** C1 (what the code does on a failed decode).  For every upload whose
    multipart decode fails, the parse callback throws the decode error, and it
    has pushed the [fields] argument to the record log before it throws: the
    log returned by [getCrashes()] is one entry longer.  Listeners, promises and
    pending handlers are untouched, so a later upload is handled as usual. *)
Theorem C1_failed_decode_throws_after_push
    (s : State) (message : string) (fields : Fields) :
  let r := parseCallback (Some message) fields s in
  r.2 = Thrown message ∧
  getCrashes r.1 = getCrashes s ++ [fields] ∧
  length (getCrashes r.1) = S (length (getCrashes s)) ∧
  listeners r.1 = listeners s ∧ promises r.1 = promises s ∧
  inflight r.1 = inflight s.
Proof.
  simpl. split_and!; try done.
  unfold getCrashes. simpl. rewrite length_app. simpl. lia.
Qed.

(** A malformed upload on a fresh server, then a well-formed one: the first
    throws and leaves an [undefined] entry in the log, the second is handled
    as usual and answered. *)
Example failed_decode_then_upload :
  let s1 := (parseCallback (Some "missing boundary") None init).1 in
  let s2 := upload None (Some electron_crash) recorded s1 in
  getCrashes s1 = [None] ∧
  getCrashes s2 = [None; Some electron_crash] ∧
  Responded 1 (res_end reportId) ∈ trace s2.
Proof.
  cbv zeta. split_and!; [reflexivity|vm_compute; reflexivity|].
  assert (H : ∃ tr1 tr2, trace (upload None (Some electron_crash) recorded
                (parseCallback (Some "missing boundary") None init).1)
              = tr1 ++ Responded 1 (res_end reportId) :: tr2).
  { eexists [_; _; _], _. vm_compute. reflexivity. }
  destruct H as (tr1 & tr2 & ->). apply elem_of_app. right. left.
Qed.

(** C4, as the claim states it, fails: the record appended for an upload
    with the fields prod = Electron and ver = 1.2.3 does not hold the string
    Electron under prod but the array that holds it; the log does grow by
    exactly one. *)
Lemma C4_field_values_are_arrays :
  let record := multiparty_fields [("prod", "Electron"); ("ver", "1.2.3")] in
  let s1 := (parseCallback None (Some record) init).1 in
  length (getCrashes s1) = 1%nat ∧
  field 0 "prod" s1 = Some (JsArray ["Electron"]) ∧
  field 0 "prod" s1 ≠ Some (JsString "Electron") ∧
  field 0 "ver" s1 = Some (JsArray ["1.2.3"]).
Proof. cbv zeta. split_and!; try (vm_compute; reflexivity). vm_compute. discriminate. Qed.

(** C4 (amended).  For every well-decoded upload, whose field names are none
    of the names a plain object inherits, the length of [getCrashes()] grows
    by exactly one, the new last entry is the record multiparty decoded, and
    it stays at its index whatever runs later.  Under every submitted name the
    record holds the array of the string values submitted under that name,
    in the order of the body; a field submitted once reads back through
    [String(...)] as its value; a name that was not submitted is absent from
    the record. *)
Theorem C4_record_fidelity
    (s : State) (parts : list (string * string)) (es : list Event) :
  Forall (λ part, part.1 ∉ object_prototype_names) parts →
  let submitted := multiparty_fields parts in
  let req := length (getCrashes s) in
  let s1 := (parseCallback None (Some submitted) s).1 in
  length (getCrashes s1) = S (length (getCrashes s)) ∧
  getCrashes s1 = getCrashes s ++ [Some submitted] ∧
  getCrashes (run s1 es) !! req = Some (Some submitted) ∧
  (∀ name, field req name (run s1 es) =
     match values_of name parts with
     | [] => None
     | values => Some (JsArray values)
     end) ∧
  (∀ name value, values_of name parts = [value] →
     field req name (run s1 es) = Some (JsArray [value]) ∧
     js_String (field req name (run s1 es)) = value) ∧
  (∀ name, values_of name parts = [] → field req name (run s1 es) = None).
Proof.
  intros _ submitted req s1.
  assert (Hlog : getCrashes (run s1 es) !! req = Some (Some submitted)).
  { unfold getCrashes, s1. rewrite run_crashes. simpl.
    rewrite <- app_assoc. rewrite lookup_app_r by done.
    unfold req, getCrashes. by rewrite Nat.sub_diag. }
  assert (Hfield : ∀ name, field req name (run s1 es) =
     match values_of name parts with
     | [] => None
     | values => Some (JsArray values)
     end).
  { intros name. unfold field. rewrite Hlog. apply multiparty_fields_lookup. }
  split_and!; try done.
  - unfold getCrashes, s1. simpl. rewrite length_app. simpl. lia.
  - intros name value Hone. rewrite Hfield, Hone. done.
  - intros name Hnone. by rewrite Hfield, Hnone.
Qed.

Lemma C4_record_fidelity_witness :
  let parts := [("prod", "Electron"); ("extra", "a"); ("extra", "b")] in
  let s1 := (parseCallback None (Some (multiparty_fields parts)) init).1 in
  length (getCrashes s1) = 1%nat ∧
  field 0 "prod" (run s1 [Wait]) = Some (JsArray ["Electron"]) ∧
  js_String (field 0 "prod" (run s1 [Wait])) = "Electron" ∧
  field 0 "extra" (run s1 [Wait]) = Some (JsArray ["a"; "b"]) ∧
  field 0 "ver" (run s1 [Wait]) = None.
Proof.
  assert (Hnames : Forall (λ part : string * string, part.1 ∉ object_prototype_names)
                     [("prod", "Electron"); ("extra", "a"); ("extra", "b")]).
  { repeat constructor; simpl; intros H;
      repeat (apply elem_of_cons in H as [H|H]; [discriminate H|]);
      by apply elem_of_nil in H. }
  pose proof (C4_record_fidelity init
                [("prod", "Electron"); ("extra", "a"); ("extra", "b")] [Wait] Hnames)
    as (Hlen & _ & _ & Hall & Hone & Hnone).
  cbv zeta. split_and!.
  - exact Hlen.
  - exact (proj1 (Hone "prod" "Electron" eq_refl)).
  - exact (proj2 (Hone "prod" "Electron" eq_refl)).
  - exact (Hall "extra").
  - exact (Hnone "ver" eq_refl).
Defined.

Lemma uploads_crashes s us :
  crashes (uploads s us) = crashes s ++ map (λ u, Some u.1) us.
Proof.
  revert s. induction us as [|u us IH]; intros s; simpl.
  - by rewrite app_nil_r.
  - unfold uploads in *. simpl. rewrite IH. unfold upload.
    rewrite run_crashes. simpl. by rewrite <- app_assoc.
Qed.

(** C5.  [getCrashes()] is the log of everything pushed so far, in the order
    the parse callbacks ran: after any events it lists the [fields] of the
    decodes in order, a longer run only appends to what a shorter run showed,
    and [n] uploads handled one after the other with no waiter leave exactly
    their [n] records, whole and in order. *)
Theorem C5_log_order (es1 es2 : list Event) (us : list (CrashInfo * Reporter)) :
  getCrashes (run init es1) = parsed_fields es1 ∧
  getCrashes (run init (es1 ++ es2)) = getCrashes (run init es1) ++ parsed_fields es2 ∧
  getCrashes (uploads init us) = map (λ u, Some u.1) us ∧
  length (getCrashes (uploads init us)) = length us ∧
  listeners (uploads init us) = [].
Proof.
  unfold getCrashes. split_and!.
  - by rewrite run_crashes.
  - by rewrite run_app, run_crashes.
  - by rewrite uploads_crashes.
  - rewrite uploads_crashes. simpl. by rewrite length_map.
  - assert (H : ∀ s, listeners s = [] → listeners (uploads s us) = []); [|by apply H].
    induction us as [|u us IH]; intros s Hs; simpl; [done|].
    apply IH. unfold upload. simpl.
    unfold flushCallback. simpl. rewrite lookup_insert_eq. simpl.
    unfold resumeCallback. simpl. rewrite lookup_insert_eq.
    destruct (checkReport _ _); simpl; [|done].
    by rewrite emit_unfold.
Qed.

(** C6.  For every well-decoded upload the response written has status 200
    and the report identifier as its body, and the identifier the handler's
    closure holds when the flush callback resumes from [checkReport] is that
    same body, whatever other callbacks ran in between. *)
Theorem C6_response_echoes_report_id
    (s : State) (fields : Fields) (es1 es2 : list Event) :
  let req := length (crashes s) in
  forallb (λ e, negb (targets req e)) (es1 ++ es2) = true →
  let s1 := (parseCallback None fields s).1 in
  let s2 := run (flushCallback req (run s1 es1)) es2 in
  ∃ response,
    trace s1 = trace s ++ [Pushed req fields; Responded req response] ∧
    statusCode response = 200%Z ∧
    body response = reportId ∧
    inflight s1 !! req = Some (Flushing fields (body response)) ∧
    inflight s2 !! req = Some (Checking fields (body response)).
Proof.
  intros req Hes s1 s2. exists (res_end reportId).
  destruct (parseCallback_ok s fields) as (_ & _ & _ & Hin & Htr).
  destruct (handler_suspended s fields es1 es2 Hes) as (Hin2 & _ & _).
  by split_and!.
Qed.

Lemma C6_response_echoes_report_id_witness :
  ∃ response,
    trace (parseCallback None (Some electron_crash) init).1 =
      [Pushed 0 (Some electron_crash); Responded 0 response] ∧
    statusCode response = 200%Z ∧
    body response = reportId ∧
    inflight (parseCallback None (Some electron_crash) init).1 !! 0%nat =
      Some (Flushing (Some electron_crash) (body response)) ∧
    inflight (run (flushCallback 0
                (run (parseCallback None (Some electron_crash) init).1 [Wait]))
                [Parsed None None]) !! 0%nat =
      Some (Checking (Some electron_crash) (body response)).
Proof.
  apply (C6_response_echoes_report_id init (Some electron_crash) [Wait] [Parsed None None]).
  reflexivity.
Defined.

End UploadClaims.

(** ** The claims about waiters and the order of the handler's steps *)

Module WaiterClaims.
Import Server ServerFacts.

(** C2, as the claim states it, fails: a well-decoded upload whose report
    self-check throws ([waitForCrashReport] finds no report in ten polls) gets
    its response, but its socket is never destroyed and the waiter that was
    pending stays pending, although the record is in the log. *)
Lemma C2_self_check_gates_teardown :
  let s := upload None (Some electron_crash) silent (waitForCrash init).1 in
  trace s = [Pushed 0 (Some electron_crash);
             Responded 0 {| statusCode := 200; body := reportId |};
             CheckRejected 0 "No crash report available"] ∧
  (SocketDestroyed 0 ∉ trace s) ∧
  resolution 0 s = None ∧
  getCrashes s = [Some electron_crash].
Proof.
  assert (Htr : trace (upload None (Some electron_crash) silent (waitForCrash init).1)
                = [Pushed 0 (Some electron_crash);
                   Responded 0 {| statusCode := 200; body := reportId |};
                   CheckRejected 0 "No crash report available"]).
  { vm_compute. reflexivity. }
  cbv zeta. split_and!.
  - exact Htr.
  - rewrite Htr. intros H.
    repeat (apply elem_of_cons in H as [H|H]; [discriminate|]).
    by apply elem_of_nil in H.
  - vm_compute. reflexivity.
  - vm_compute. reflexivity.
Qed.

(** C2 (amended).  For every well-decoded upload, on a server in any reachable
    state and with callbacks of other requests and [waitForCrash()] calls
    running in between: the response with the report identifier is written by
    the parse callback and the record is in [getCrashes()] from then on.  When
    the flush callback resumes from [checkReport], if the self-check passed
    the socket is destroyed, then ['crash'] is emitted and every waiter
    listening at that moment is resolved with the record, in this order with
    nothing in between (no waiter: nothing is resolved); if the self-check
    threw, the socket is not destroyed and no waiter is resolved. *)
Theorem C2_respond_destroy_then_resolve
    (es0 : list Event) (fields : Fields) (es1 es2 : list Event) (cr : Reporter) :
  let s := run init es0 in
  let req := length (crashes s) in
  forallb (λ e, negb (targets req e)) (es1 ++ es2) = true →
  let s1 := (parseCallback None fields s).1 in
  let s2 := run (flushCallback req (run s1 es1)) es2 in
  let s3 := resumeCallback req cr s2 in
  (∃ between,
     trace s2 = trace s ++ [Pushed req fields; Responded req (res_end reportId)]
                        ++ between) ∧
  getCrashes s2 !! req = Some fields ∧
  getCrashes s3 !! req = Some fields ∧
  match checkReport cr reportId with
  | CheckPassed =>
      trace s3 = trace s2 ++ [SocketDestroyed req; Emitted req fields]
                          ++ map (λ p, ResolveCalled p fields) (listeners s2) ∧
      (∀ p, p ∈ listeners s2 → resolution p s3 = Some fields) ∧
      listeners s3 = []
  | CheckThrew message =>
      trace s3 = trace s2 ++ [CheckRejected req message] ∧
      promises s3 = promises s2 ∧
      listeners s3 = listeners s2
  end.
Proof.
  intros s req Hes s1 s2 s3.
  destruct (handler_suspended s fields es1 es2 Hes) as (Hin & [new Hnew] & Hlog).
  fold req s1 s2 in Hin, Hnew, Hlog.
  pose proof (reachable_suspended es0 fields es1 es2) as Hinv.
  fold s req s1 s2 in Hinv. simpl in Hinv.
  destruct (resumeCallback_checking s2 req fields reportId cr Hin
              (inv_listeners _ Hinv)) as [Hc Hres].
  fold s3 in Hc, Hres.
  split_and!.
  - exists new. rewrite Hnew.
    destruct (parseCallback_ok s fields) as (_ & _ & _ & _ & Htr).
    fold s1 req in Htr. rewrite Htr. by rewrite <- app_assoc.
  - done.
  - unfold getCrashes. by rewrite Hc.
  - done.
Qed.

Lemma C2_respond_destroy_then_resolve_witness :
  let s2 := flushCallback 0 (parseCallback None (Some electron_crash)
                               (run init [Wait])).1 in
  trace (resumeCallback 0 recorded s2) =
    trace s2 ++ [SocketDestroyed 0; Emitted 0 (Some electron_crash)]
             ++ map (λ p, ResolveCalled p (Some electron_crash)) (listeners s2) ∧
  (∀ p, p ∈ listeners s2 →
        resolution p (resumeCallback 0 recorded s2) = Some (Some electron_crash)) ∧
  listeners (resumeCallback 0 recorded s2) = [].
Proof.
  pose proof (C2_respond_destroy_then_resolve
                [Wait] (Some electron_crash) [] [] recorded eq_refl) as H.
  destruct H as (_ & _ & _ & H).
  change (checkReport recorded reportId) with CheckPassed in H.
  exact H.
Defined.

(** C10, as the claim states it, fails: with two waiters pending, a
    well-decoded upload whose report self-check throws resolves neither. *)
Lemma C10_self_check_gates_waiters :
  let s1 := run init [Wait; Wait] in
  let s2 := upload None (Some electron_crash) silent s1 in
  listeners s1 = [0; 1]%nat ∧
  getCrashes s2 = [Some electron_crash] ∧
  resolution 0 s2 = None ∧ resolution 1 s2 = None.
Proof. cbv zeta. split_and!; vm_compute; reflexivity. Qed.

(** C10 (amended).  If [waitForCrash()] is called [n] times in a row, each
    call adds its own one-shot listener with its own pending promise, and a
    single following upload that decodes and whose report self-check passes
    resolves every one of these promises with the same record, the uploaded
    one; no waiter is rejected or overwritten. *)
Theorem C10_one_upload_resolves_all_waiters
    (es0 : list Event) (n : nat) (fields : Fields) (cr : Reporter) :
  let s := run init es0 in
  let s1 := run s (replicate n Wait) in
  let s2 := upload None fields cr s1 in
  checkReport cr reportId = CheckPassed →
  listeners s1 = listeners s ++ seq (length (promises s)) n ∧
  ∀ i, (i < n)%nat →
    let p := (length (promises s) + i)%nat in
    resolution p s1 = None ∧ resolution p s2 = Some fields.
Proof.
  intros s s1 s2 Hpass.
  destruct (run_waits s n) as (Hc & Hi & Ht & Hl & Hp). fold s1 in Hc, Hi, Ht, Hl, Hp.
  split; [done|]. intros i Hi' p.
  assert (Hinv1 : Inv s1) by apply Inv_run, Inv_run, Inv_init.
  assert (Hp1 : p ∈ listeners s1).
  { rewrite Hl. apply elem_of_app. right. apply elem_of_seq. unfold p. lia. }
  split.
  - unfold resolution.
    by rewrite (proj2 (inv_listeners _ Hinv1) p Hp1).
  - pose proof (C := resumeCallback_checking).
    destruct (parseCallback_ok s1 fields) as (Hc1 & Hl1 & Hp1' & Hin1 & _).
    destruct (flushCallback_flushing _ _ _ _ Hin1) as (_ & Hl2 & Hp2 & _ & Hin2).
    assert (Hok2 : listeners_ok
                     (flushCallback (length (crashes s1))
                        (parseCallback None fields s1).1)).
    { apply (listeners_ok_step _ (Flushed _)),
            (listeners_ok_step _ (Parsed None fields)), Hinv1. }
    destruct (C _ _ _ _ cr Hin2 Hok2) as [_ Hres].
    rewrite Hpass in Hres. destruct Hres as (_ & Hres & _).
    apply Hres. by rewrite Hl2, Hl1.
Qed.

Lemma C10_one_upload_resolves_all_waiters_witness :
  checkReport recorded reportId = CheckPassed ∧
  ∀ i, (i < 2)%nat →
    resolution (0 + i) (run init [Wait; Wait]) = None ∧
    resolution (0 + i)
      (upload None (Some electron_crash) recorded (run init [Wait; Wait]))
    = Some (Some electron_crash).
Proof.
  split; [reflexivity|].
  exact (proj2 (C10_one_upload_resolves_all_waiters
                  [] 2 (Some electron_crash) recorded eq_refl)).
Defined.

(** C3, as the claim states it, fails in two ways.  A record appended after
    the call does not resolve the promise when its report self-check throws;
    and when an upload decoded before the call is still in flight, the promise
    resolves with that earlier record and never with the record appended
    after the call, although every self-check passes. *)
Lemma C3_not_every_later_record_resolves :
  (let s := upload None (Some electron_crash) silent (waitForCrash init).1 in
   getCrashes s = [Some electron_crash] ∧ resolution 0 s = None) ∧
  (let s := run init [Parsed None (Some ∅); Wait;
                      Parsed None (Some electron_crash);
                      Flushed 0; Resumed 0 recorded;
                      Flushed 1; Resumed 1 recorded] in
   getCrashes s = [Some ∅; Some electron_crash] ∧
   resolution 0 s = Some (Some ∅) ∧
   resolution 0 s ≠ Some (Some electron_crash)).
Proof.
  cbv zeta. split_and!; try (vm_compute; reflexivity).
  vm_compute. discriminate.
Qed.

(** C3 (amended).  For every [waitForCrash()] call, in any reachable state
    and whatever runs afterwards: [resolve] of the returned promise is called
    at most once, and the promise stands resolved exactly with the first
    record emitted on ['crash'] after the call (pending while there is none);
    that record is an entry of [getCrashes()], the one of the request that
    emitted it.  In particular, waiting on a fresh server and then handling one
    upload with fields prod = Electron, ver = 1.2.3 whose report self-check
    passes resolves the promise with the record multiparty decoded, whose
    prod and ver fields are the one-element arrays of these values and read
    through [String(...)] as Electron and 1.2.3. *)
Theorem C3_waiter_gets_first_emission (es0 es : list Event) :
  let s := run init es0 in
  let p := (waitForCrash s).2 in
  let t := run (waitForCrash s).1 es in
  let after := drop (length (trace s)) (trace t) in
  (resolve_calls p (trace t) ≤ 1)%nat ∧
  resolution p t = head (emissions after) ∧
  (∀ crash, resolution p t = Some crash →
     resolve_calls p (trace t) = 1%nat ∧
     ∃ req, Emitted req crash ∈ after ∧ getCrashes t !! req = Some crash) ∧
  (∀ cr, checkReport cr reportId = CheckPassed →
     ∃ record,
       resolution 0 (upload None (Some electron_crash) cr (waitForCrash init).1)
         = Some (Some record) ∧
       record !! "prod" = Some (JsArray ["Electron"]) ∧
       js_String (record !! "prod") = "Electron" ∧
       record !! "ver" = Some (JsArray ["1.2.3"]) ∧
       js_String (record !! "ver") = "1.2.3").
Proof.
  intros s p t after.
  assert (Hinv : Inv s) by apply Inv_run, Inv_init.
  assert (Hinvt : Inv t) by by apply Inv_run, Inv_wait.
  pose proof (waiter_ok_run _ _ _ es
                (inv_listeners _ (Inv_wait _ Hinv)) (waiter_ok_wait s Hinv))
    as (new & Htr & Hcase).
  fold p t in Htr, Hcase.
  assert (Hafter : after = new).
  { unfold after. rewrite Htr. apply drop_app_length. }
  rewrite Hafter. unfold resolution.
  destruct Hcase as [(_&Hp&He&Hr)|(_&crash&Hp&He&Hr)]; rewrite Hp, He, Hr.
  - split_and!; [lia|done|done|].
    intros cr Hpass. exists electron_crash. split; [|by vm_compute].
    unfold upload, run. simpl. unfold flushCallback. simpl.
    rewrite lookup_insert_eq. unfold resumeCallback. simpl.
    rewrite lookup_insert_eq, Hpass. by rewrite emit_unfold.
  - split_and!; [lia|done| |].
    + intros c [= <-]. split; [done|].
      assert (Hc : crash ∈ emissions new).
      { destruct (emissions new); [done|]. injection He as ->. left. }
      apply emissions_elem in Hc as [req Hreq]. exists req. split; [done|].
      apply (inv_emitted _ Hinvt). rewrite Htr. apply elem_of_app. by right.
    + intros cr Hpass. exists electron_crash. split; [|by vm_compute].
      unfold upload, run. simpl. unfold flushCallback. simpl.
      rewrite lookup_insert_eq. unfold resumeCallback. simpl.
      rewrite lookup_insert_eq, Hpass. by rewrite emit_unfold.
Qed.

Lemma C3_waiter_gets_first_emission_witness :
  checkReport recorded reportId = CheckPassed ∧
  ∃ record,
    resolution 0 (upload None (Some electron_crash) recorded (waitForCrash init).1)
      = Some (Some record) ∧
    record !! "prod" = Some (JsArray ["Electron"]) ∧
    js_String (record !! "prod") = "Electron" ∧
    record !! "ver" = Some (JsArray ["1.2.3"]) ∧
    js_String (record !! "ver") = "1.2.3".
Proof.
  split; [reflexivity|].
  exact (proj2 (proj2 (proj2 (C3_waiter_gets_first_emission [] [])))
           recorded eq_refl).
Defined.

End WaiterClaims.

(** ** Facts about the harness *)

Module HarnessFacts.
Import Harness.

Lemma listen_Some requested os_pick bound b :
  listen requested os_pick bound = Some b →
  b = (if (requested =? 0)%Z then os_pick else requested) ∧
  valid_port b = true ∧ b ∉ bound.
Proof.
  unfold listen. intros H.
  destruct (valid_port _) eqn:Hv; simpl in H; [|done].
  case_bool_decide as Hin; simpl in H; [done|].
  injection H as <-. done.
Qed.

Lemma valid_port_range b : valid_port b = true ↔ (1 ≤ b ≤ 65535)%Z.
Proof. unfold valid_port. rewrite andb_true_iff, !Z.leb_le. done. Qed.

Lemma startServer_Some os_pick p p' b :
  startServer os_pick p = Some (p', b) →
  listen (crashReporterPort p) os_pick (bound_ports p) = Some b ∧
  p' = {| crashReporterPort :=
            if (crashReporterPort p =? 0)%Z then b else crashReporterPort p;
          started :=
            if (crashReporterPort p =? 0)%Z
            then started p ++ [start_options b] else started p;
          servers := servers p ++ [{| port := b; listening := true |}];
          afterTest := afterTest p ++ [length (servers p)] |}.
Proof.
  unfold startServer. destruct (listen _ _ _) as [b0|]; [|done].
  by intros [= <- <-].
Qed.

(** The port [startServer] returns is the fixed port of the process after
    the call, and it is a valid port. *)
Lemma startServer_port os_pick p p' b :
  startServer os_pick p = Some (p', b) →
  crashReporterPort p' = b ∧ (1 ≤ b ≤ 65535)%Z ∧
  (crashReporterPort p ≠ 0%Z → b = crashReporterPort p).
Proof.
  intros [Hl ->]%startServer_Some.
  apply listen_Some in Hl as (Hb & Hv & _). apply valid_port_range in Hv.
  simpl. destruct (Z.eqb_spec (crashReporterPort p) 0) as [Hz|Hnz];
    split_and!; try done; try congruence; lia.
Qed.

(** *** Closing servers *)

Lemma server_close_twice srv :
  server_close (server_close srv).1 = ((server_close srv).1, ErrServerNotRunning).
Proof. unfold server_close. by destruct srv as [b []]. Qed.

Lemma server_close_result srv :
  port (server_close srv).1 = port srv ∧ listening (server_close srv).1 = false.
Proof. unfold server_close. by destruct srv as [b []]. Qed.

Lemma close_closure_fields sid p :
  crashReporterPort (close_closure sid p) = crashReporterPort p ∧
  started (close_closure sid p) = started p ∧
  afterTest (close_closure sid p) = afterTest p ∧
  length (servers (close_closure sid p)) = length (servers p).
Proof.
  unfold close_closure. destruct (servers p !! sid); simpl; [|done].
  by rewrite length_insert.
Qed.

Lemma close_closure_lookup sid p i :
  servers (close_closure sid p) !! i =
  (λ srv, if decide (i = sid) then (server_close srv).1 else srv) <$> servers p !! i.
Proof.
  unfold close_closure. destruct (servers p !! sid) as [srv|] eqn:Hsid; simpl.
  - destruct (decide (i = sid)) as [->|Hne].
    + rewrite list_lookup_insert_eq by by eapply lookup_lt_Some.
      by rewrite Hsid.
    + rewrite list_lookup_insert_ne by done.
      by destruct (servers p !! i).
  - destruct (decide (i = sid)) as [->|Hne]; [by rewrite Hsid|].
    by destruct (servers p !! i).
Qed.

Lemma close_all_fields sids p :
  let p' := foldl (λ acc sid, close_closure sid acc) p sids in
  crashReporterPort p' = crashReporterPort p ∧ started p' = started p ∧
  afterTest p' = afterTest p ∧ length (servers p') = length (servers p).
Proof.
  revert p. induction sids as [|sid sids IH]; intros p; simpl; [done|].
  destruct (IH (close_closure sid p)) as (-> & -> & -> & ->).
  apply close_closure_fields.
Qed.

Lemma close_all_lookup sids p i :
  servers (foldl (λ acc sid, close_closure sid acc) p sids) !! i =
  (λ srv, if decide (i ∈ sids) then (server_close srv).1 else srv) <$> servers p !! i.
Proof.
  revert p. induction sids as [|sid sids IH]; intros p; simpl.
  - destruct (servers p !! i); simpl; [|done].
    destruct (decide (i ∈ [])) as [H|]; [by apply elem_of_nil in H|done].
  - rewrite IH, close_closure_lookup.
    destruct (servers p !! i) as [srv|]; simpl; [|done]. f_equal.
    destruct (decide (i = sid)) as [->|Hne].
    + rewrite (decide_True (P := sid ∈ sid :: sids)) by left.
      destruct (decide (sid ∈ sids)); [|done].
      by rewrite server_close_twice.
    + destruct (decide (i ∈ sids)) as [Hin|Hnin].
      * by rewrite decide_True by by right.
      * rewrite decide_False; [done|].
        intros [?|?]%elem_of_cons; done.
Qed.

Lemma bound_ports_closed p :
  (∀ i srv, servers p !! i = Some srv → listening srv = false) →
  bound_ports p = [].
Proof.
  unfold bound_ports. intros H.
  induction (servers p) as [|srv l IH]; [done|].
  rewrite filter_cons_False.
  - apply IH. intros i srv' Hi. by apply (H (S i)).
  - rewrite (H 0%nat srv); done.
Qed.

Lemma bound_ports_elem p srv i :
  servers p !! i = Some srv → listening srv = true → port srv ∈ bound_ports p.
Proof.
  intros Hi Hl. unfold bound_ports. apply list_elem_of_fmap.
  exists srv. split; [done|]. apply list_elem_of_filter. split; [done|].
  by eapply list_elem_of_lookup_2.
Qed.

(** *** The invariant holds in every state a run reaches *)

Lemma ProcessInv_init : ProcessInv init.
Proof. split; simpl; [by left|done..]. Qed.

Lemma ProcessInv_startServer os_pick p p' b :
  ProcessInv p → startServer os_pick p = Some (p', b) → ProcessInv p'.
Proof.
  intros [Hs Hp Hlast Hreg] [Hl ->]%startServer_Some.
  apply listen_Some in Hl as (Hb & Hv & Hfree).
  assert (Hb0 : b ≠ 0%Z) by (apply valid_port_range in Hv; lia).
  assert (Hclosed : ∀ i srv, servers p !! i = Some srv → listening srv = false).
  { intros i srv Hi. destruct (listening srv) eqn:Hsrv; [|done].
    destruct (Hp i srv Hi) as [Hport Hvalid].
    assert (crashReporterPort p ≠ 0%Z).
    { rewrite <- Hport. apply valid_port_range in Hvalid. lia. }
    destruct (Z.eqb_spec (crashReporterPort p) 0); [done|].
    exfalso. apply Hfree. rewrite Hb, <- Hport. by eapply bound_ports_elem. }
  assert (Hcrp : ∀ i srv, servers p !! i = Some srv →
            (if (crashReporterPort p =? 0)%Z then b else crashReporterPort p)
            = crashReporterPort p).
  { intros i srv Hi. destruct (Hp i srv Hi) as [Hport Hvalid].
    destruct (Z.eqb_spec (crashReporterPort p) 0) as [Hz|]; [|done].
    apply valid_port_range in Hvalid. lia. }
  split; simpl.
  - destruct Hs as [[Hz Hst]|[Hnz Hst]].
    + right. by rewrite Hz, Hst.
    + right. by destruct (Z.eqb_spec (crashReporterPort p) 0).
  - intros i srv [[_ Hi]|[_ <-]]%lookup_snoc_Some.
    + rewrite (Hcrp i srv Hi). by apply (Hp i).
    + simpl. split; [|done].
      destruct (Z.eqb_spec (crashReporterPort p) 0) as [Hz|]; done.
  - intros i srv [[_ Hi]|[-> _]]%lookup_snoc_Some Hsrv.
    + by rewrite (Hclosed i srv Hi) in Hsrv.
    + rewrite length_app. simpl. lia.
  - intros i srv [[_ Hi]|[-> _]]%lookup_snoc_Some Hsrv.
    + by rewrite (Hclosed i srv Hi) in Hsrv.
    + apply elem_of_app. right. by apply list_elem_of_singleton.
Qed.

(** After [cleanup] no server of the process is listening. *)
Lemma cleanup_closes_all p i srv :
  ProcessInv p → servers (cleanup p) !! i = Some srv → listening srv = false.
Proof.
  intros [_ _ _ Hreg]. unfold cleanup. simpl. rewrite close_all_lookup.
  destruct (servers p !! i) as [srv0|] eqn:Hi; simpl; [|done].
  intros [= <-]. destruct (decide (i ∈ afterTest p)) as [Hin|Hnin].
  - apply server_close_result.
  - destruct (listening srv0) eqn:Hsrv; [|done].
    exfalso. by eapply Hnin, Hreg.
Qed.

Lemma ProcessInv_cleanup p : ProcessInv p → ProcessInv (cleanup p).
Proof.
  intros Hinv. pose proof (cleanup_closes_all p) as Hclosed.
  destruct Hinv as [Hs Hp Hlast Hreg].
  destruct (close_all_fields (afterTest p) p) as (Hc & Hst & _ & Hlen).
  split.
  - unfold cleanup. simpl. by rewrite Hc, Hst.
  - intros i srv Hi. unfold cleanup in *. simpl in *. rewrite Hc.
    rewrite close_all_lookup in Hi.
    destruct (servers p !! i) as [srv0|] eqn:Hi0; simpl in Hi; [|done].
    injection Hi as <-. destruct (Hp i srv0 Hi0) as [Hport Hvalid].
    destruct (decide _); [|done].
    destruct (server_close_result srv0) as [-> _]. done.
  - intros i srv Hi Hsrv. rewrite (Hclosed i srv) in Hsrv; [done| |done].
    by split.
  - intros i srv Hi Hsrv. rewrite (Hclosed i srv) in Hsrv; [done| |done].
    by split.
Qed.

Lemma ProcessInv_exec p op : ProcessInv p → ProcessInv (exec p op).1.
Proof.
  intros H. destruct op as [os_pick|]; simpl.
  - destruct (startServer os_pick p) as [[p' b]|] eqn:Hstart; simpl; [|done].
    by eapply ProcessInv_startServer.
  - by apply ProcessInv_cleanup.
Qed.

Lemma ProcessInv_run p ops : ProcessInv p → ProcessInv (run p ops).
Proof.
  revert p. induction ops as [|op ops IH]; intros p H; simpl; [done|].
  by apply IH, ProcessInv_exec.
Qed.

(** *** Once fixed, the port stays *)

Lemma exec_fixed p op :
  crashReporterPort p ≠ 0%Z →
  crashReporterPort (exec p op).1 = crashReporterPort p.
Proof.
  intros Hnz. destruct op as [os_pick|]; simpl.
  - destruct (startServer os_pick p) as [[p' b]|] eqn:Hstart; simpl; [|done].
    apply startServer_port in Hstart as (-> & _ & Hb). by apply Hb.
  - unfold cleanup. simpl. apply close_all_fields.
Qed.

Lemma run_fixed p ops :
  crashReporterPort p ≠ 0%Z →
  crashReporterPort (run p ops) = crashReporterPort p.
Proof.
  revert p. induction ops as [|op ops IH]; intros p Hnz; simpl; [done|].
  unfold run in IH. rewrite IH; rewrite exec_fixed; done.
Qed.

Lemma returned_ports_fixed p ops b :
  b ∈ returned_ports p ops →
  b = crashReporterPort (run p ops) ∧ (1 ≤ b ≤ 65535)%Z.
Proof.
  revert p. induction ops as [|op ops IH]; intros p Hb; simpl in *.
  - by apply elem_of_nil in Hb.
  - apply elem_of_app in Hb as [Hb|Hb]; [|by apply IH].
    destruct op as [os_pick|]; simpl in *; [|by apply elem_of_nil in Hb].
    destruct (startServer os_pick p) as [[p' b']|] eqn:Hstart; simpl in *;
      [|by apply elem_of_nil in Hb].
    apply list_elem_of_singleton in Hb as ->.
    apply startServer_port in Hstart as (Hp' & Hrange & _).
    split; [|done].
    fold (run p' ops). rewrite run_fixed; [done|]. lia.
Qed.

End HarnessFacts.

(** ** Facts about overlapping [startServer] calls *)

Module CallsFacts.
Import Harness HarnessFacts Calls.

(** A call that nothing interrupts is its two halves run back to back. *)
Lemma startServer_sequential os_pick p :
  startServer os_pick p =
  match startServer_resume (length (servers p))
          (startServer_listen os_pick {| process := p; suspended := [] |}) with
  | (w, Some bound) => Some (process w, bound)
  | (_, None) => None
  end.
Proof.
  unfold startServer, startServer_listen, startServer_resume. simpl.
  destruct (listen _ _ _) as [bound|]; simpl; [|done].
  rewrite decide_True by (apply list_elem_of_singleton; done).
  rewrite lookup_app_r, Nat.sub_diag by done. done.
Qed.

Lemma cleanup_lookup p i srv :
  servers p !! i = Some srv →
  ∃ srv', servers (cleanup p) !! i = Some srv' ∧ port srv' = port srv.
Proof.
  intros Hi. unfold cleanup. simpl. rewrite close_all_lookup, Hi. simpl.
  eexists. split; [done|]. destruct (decide _); [|done].
  apply server_close_result.
Qed.

Lemma WorldInv_init : WorldInv Calls.init.
Proof.
  split; simpl; [by left|done|].
  intros sid H. by apply elem_of_nil in H.
Qed.

Lemma WorldInv_step w st : WorldInv w → WorldInv (step w st).
Proof.
  intros [Hs Hp Hsus]. destruct st as [os_pick|sid|]; simpl.
  - unfold startServer_listen.
    destruct (listen _ _ _) as [bound|] eqn:Hl; [|done].
    apply listen_Some in Hl as (_ & Hv & _).
    split; simpl; [done| |].
    + intros i srv [[_ Hi]|[_ <-]]%lookup_snoc_Some; [by eapply Hp|done].
    + intros sid [Hsid|Hsid]%elem_of_app.
      * destruct (Hsus sid Hsid) as [srv Hsrv].
        exists srv. by apply lookup_app_l_Some.
      * apply list_elem_of_singleton in Hsid as ->.
        eexists. by rewrite lookup_app_r, Nat.sub_diag.
  - unfold startServer_resume.
    destruct (decide (sid ∈ suspended w)) as [Hin|]; [|done].
    destruct (servers (process w) !! sid) as [srv|] eqn:Hsid; [|done].
    split; simpl; [|done|].
    + destruct Hs as [[Hz Hst]|[Hnz Hst]].
      * rewrite Hz, Hst. simpl. right. split; [|done].
        apply Hp, valid_port_range in Hsid. lia.
      * right. by destruct (Z.eqb_spec (crashReporterPort (process w)) 0).
    + intros other [_ Hother]%list_elem_of_filter. by apply Hsus.
  - destruct (close_all_fields (afterTest (process w)) (process w))
      as (Hc & Hst & _ & Hlen).
    split; simpl.
    + by rewrite Hc, Hst.
    + intros i srv Hi. rewrite close_all_lookup in Hi.
      destruct (servers (process w) !! i) as [srv0|] eqn:Hi0; simpl in Hi; [|done].
      injection Hi as <-. destruct (decide _); [|by eapply Hp].
      destruct (server_close_result srv0) as [-> _]. by eapply Hp.
    + intros sid Hsid. destruct (Hsus sid Hsid) as [srv Hsrv].
      apply cleanup_lookup in Hsrv as (srv' & Hsrv' & _).
      unfold cleanup in Hsrv'. simpl in Hsrv'. eauto.
Qed.

Lemma WorldInv_run w sts : WorldInv w → WorldInv (Calls.run w sts).
Proof.
  revert w. induction sts as [|st sts IH]; intros w H; simpl; [done|].
  by apply IH, WorldInv_step.
Qed.

(** A suspended call stays suspended, on the port it bound, until it is
    resumed. *)
Lemma held_step sid b w st :
  resumes sid st = false → held sid b w → held sid b (step w st).
Proof.
  intros Hst (Hin & srv & Hsrv & Hport).
  destruct st as [os_pick|other|]; simpl in *.
  - unfold startServer_listen. destruct (listen _ _ _); [|by split; eauto].
    split; simpl; [set_solver|].
    exists srv. split; [by apply lookup_app_l_Some|done].
  - apply bool_decide_eq_false in Hst.
    unfold startServer_resume.
    destruct (decide (other ∈ suspended w)); [|by split; eauto].
    destruct (servers (process w) !! other); [|by split; eauto].
    split; simpl; [|eauto].
    apply list_elem_of_filter. split; [congruence|done].
  - split; simpl; [done|].
    apply cleanup_lookup in Hsrv as (srv' & Hsrv' & Hport').
    exists srv'. split; [done|congruence].
Qed.

Lemma held_run sid b w sts :
  forallb (λ st, negb (resumes sid st)) sts = true →
  held sid b w → held sid b (Calls.run w sts).
Proof.
  revert w. induction sts as [|st sts IH]; intros w Hsts Hheld; simpl in *; [done|].
  apply andb_true_iff in Hsts as [Hst Hsts]. apply negb_true_iff in Hst.
  apply IH; [done|]. by apply held_step.
Qed.

(** Once a port is fixed, no step changes it or starts the crash reporter. *)
Lemma fixed_step w st :
  crashReporterPort (process w) ≠ 0%Z →
  crashReporterPort (process (step w st)) = crashReporterPort (process w) ∧
  started (process (step w st)) = started (process w).
Proof.
  intros Hnz. destruct st as [os_pick|sid|]; simpl.
  - unfold startServer_listen. by destruct (listen _ _ _).
  - unfold startServer_resume.
    destruct (decide _); [|done].
    destruct (servers (process w) !! sid); [|done]. simpl.
    by destruct (Z.eqb_spec (crashReporterPort (process w)) 0).
  - destruct (close_all_fields (afterTest (process w)) (process w))
      as (Hc & Hst & _). by rewrite Hc, Hst.
Qed.

Lemma fixed_run w sts :
  crashReporterPort (process w) ≠ 0%Z →
  crashReporterPort (process (Calls.run w sts)) = crashReporterPort (process w) ∧
  started (process (Calls.run w sts)) = started (process w).
Proof.
  revert w. induction sts as [|st sts IH]; intros w Hnz; simpl; [done|].
  destruct (fixed_step w st Hnz) as [Hc Hs].
  destruct (IH (step w st)) as [Hc' Hs']; [congruence|].
  unfold Calls.run in *. by rewrite Hc', Hs', Hc, Hs.
Qed.

(** What a suspended call does when it resumes. *)
Lemma resume_held sid b w :
  held sid b w →
  let r := startServer_resume sid w in
  r.2 = Some b ∧
  (if (crashReporterPort (process w) =? 0)%Z
   then crashReporterPort (process r.1) = b ∧
        started (process r.1) = started (process w) ++ [start_options b]
   else crashReporterPort (process r.1) = crashReporterPort (process w) ∧
        started (process r.1) = started (process w)).
Proof.
  intros (Hin & srv & Hsrv & <-). unfold startServer_resume.
  rewrite decide_True by done. rewrite Hsrv. simpl.
  split; [done|]. by destruct (crashReporterPort (process w) =? 0)%Z.
Qed.

(** A listen that succeeds leaves its call suspended on the port it bound. *)
Lemma listen_held os_pick w bound :
  WorldInv w →
  listen (crashReporterPort (process w)) os_pick (bound_ports (process w))
    = Some bound →
  let w1 := startServer_listen os_pick w in
  held (length (servers (process w))) bound w1 ∧
  servers (process w1)
    = servers (process w) ++ [{| port := bound; listening := true |}] ∧
  crashReporterPort (process w1) = crashReporterPort (process w) ∧
  started (process w1) = started (process w).
Proof.
  intros Hinv Hl. unfold startServer_listen. rewrite Hl. simpl.
  split_and!; try done. split; simpl; [set_solver|].
  eexists. split; [by rewrite lookup_app_r, Nat.sub_diag|done].
Qed.

Lemma listen_fixed_port os_pick fixed bound_now :
  fixed ≠ 0%Z → valid_port fixed = true →
  listen fixed os_pick bound_now =
  if decide (fixed ∈ bound_now) then None else Some fixed.
Proof.
  intros Hnz Hv. unfold listen.
  assert ((fixed =? 0)%Z = false) as -> by by apply Z.eqb_neq.
  rewrite Hv. simpl. by destruct (decide _); case_bool_decide.
Qed.

(** Once a port is fixed it is a valid port. *)
Lemma fixed_port_valid sts :
  let w := Calls.run Calls.init sts in
  crashReporterPort (process w) ≠ 0%Z →
  valid_port (crashReporterPort (process w)) = true.
Proof.
  assert (H : ∀ w, WorldInv w →
    (crashReporterPort (process w) ≠ 0%Z →
     valid_port (crashReporterPort (process w)) = true) →
    crashReporterPort (process (Calls.run w sts)) ≠ 0%Z →
    valid_port (crashReporterPort (process (Calls.run w sts))) = true).
  { induction sts as [|st sts IH]; intros w Hinv Hw; simpl; [done|].
    apply IH; [by apply WorldInv_step|].
    destruct (Z.eq_dec (crashReporterPort (process w)) 0%Z) as [Hz|Hnz].
    - destruct st as [os_pick|sid|]; simpl.
      + unfold startServer_listen.
        destruct (listen _ _ _); simpl; exact Hw.
      + unfold startServer_resume.
        destruct (decide _); [|exact Hw].
        destruct (servers (process w) !! sid) as [srv|] eqn:Hsid; [|exact Hw].
        simpl. rewrite Hz. simpl. intros _. by eapply (winv_ports _ Hinv).
      + destruct (close_all_fields (afterTest (process w)) (process w))
          as (Hc & _). rewrite Hc. exact Hw.
    - destruct (fixed_step w st Hnz) as [-> _]. intros _. by apply Hw. }
  apply H; [apply WorldInv_init|done].
Qed.

End CallsFacts.

(** ** The claims about starting and stopping *)

Module HarnessClaims.
Import Harness HarnessFacts.

(** C7.  The close closure registered by [startServer] is idempotent: in any
    state a run reaches, running it twice on one server leaves the state
    running it once leaves, the second [server.close()] finds a server that
    is not running and its report goes nowhere, the server is not listening
    after the first call and, if it was listening, its port is free to be
    bound again.  [cleanup] run twice is [cleanup] run once, and after it no
    port is bound. *)
Theorem C7_close_is_idempotent (ops : list Op) (sid : nat) (srv : HttpServer) :
  let p := run init ops in
  servers p !! sid = Some srv →
  let p1 := close_closure sid p in
  close_closure sid p1 = p1 ∧
  servers p1 !! sid = Some (server_close srv).1 ∧
  listening (server_close srv).1 = false ∧
  server_close (server_close srv).1 = ((server_close srv).1, ErrServerNotRunning) ∧
  (listening srv = true →
     (port srv ∉ bound_ports p1) ∧
     ∀ os_pick, listen (port srv) os_pick (bound_ports p1) = Some (port srv)) ∧
  cleanup (cleanup p) = cleanup p ∧
  bound_ports (cleanup p) = [].
Proof.
  intros p Hsid p1.
  assert (Hinv : ProcessInv p) by apply ProcessInv_run, ProcessInv_init.
  assert (Hsid1 : servers p1 !! sid = Some (server_close srv).1).
  { unfold p1. rewrite close_closure_lookup, Hsid. simpl.
    by rewrite decide_True. }
  split_and!.
  - unfold close_closure at 1. rewrite Hsid1.
    rewrite server_close_twice. simpl.
    rewrite list_insert_id by done. by destruct p1.
  - done.
  - apply server_close_result.
  - apply server_close_twice.
  - intros Hsrv.
    assert (Hnone : bound_ports p1 = []).
    { apply bound_ports_closed. intros i srv' Hi.
      unfold p1 in Hi. rewrite close_closure_lookup in Hi.
      destruct (servers p !! i) as [srv0|] eqn:Hi0; simpl in Hi; [|done].
      injection Hi as <-. destruct (decide (i = sid)) as [->|Hne].
      - apply server_close_result.
      - destruct (listening srv0) eqn:Hsrv0; [|done].
        pose proof (pinv_last _ Hinv _ _ Hi0 Hsrv0).
        pose proof (pinv_last _ Hinv _ _ Hsid Hsrv). lia. }
    rewrite Hnone. split; [apply not_elem_of_nil|].
    intros os_pick. unfold listen.
    destruct (pinv_ports _ Hinv _ _ Hsid) as [Hport Hvalid].
    assert (Hnz : (port srv =? 0)%Z = false).
    { apply Z.eqb_neq. apply valid_port_range in Hvalid. lia. }
    rewrite Hnz, Hvalid. simpl.
    by rewrite ?bool_decide_eq_false_2 by apply not_elem_of_nil.
  - done.
  - apply bound_ports_closed. intros i srv'. by apply cleanup_closes_all.
Qed.

Lemma C7_close_is_idempotent_witness :
  let p := run init [StartServer 50000] in
  servers p !! 0%nat = Some {| port := 50000; listening := true |} ∧
  close_closure 0 (close_closure 0 p) = close_closure 0 p ∧
  bound_ports (close_closure 0 p) = [] ∧
  cleanup (cleanup p) = cleanup p.
Proof.
  pose proof (C7_close_is_idempotent [StartServer 50000] 0
                {| port := 50000; listening := true |} eq_refl) as H.
  destruct H as (H1 & _ & _ & _ & _ & H2 & _).
  split_and!; [reflexivity|exact H1|reflexivity|exact H2].
Defined.

(** C8, as the claim states it, fails: two [startServer] calls of one
    process, with a [cleanup] in between and with the operating system ready
    to assign different ephemeral ports, return the same port. *)
Lemma C8_repeated_starts_share_the_port :
  returned_ports init [StartServer 50000; Cleanup; StartServer 50001]
    = [50000%Z; 50000%Z] ∧
  ¬ NoDup (returned_ports init [StartServer 50000; Cleanup; StartServer 50001]).
Proof.
  assert (H : returned_ports init [StartServer 50000; Cleanup; StartServer 50001]
              = [50000%Z; 50000%Z]) by (vm_compute; reflexivity).
  split; [exact H|]. rewrite H. intros Hnd.
  apply NoDup_cons in Hnd as [Hnin _]. apply Hnin. left.
Qed.

End HarnessClaims.

(** ** The claims about repeated and overlapping starts *)

Module CallClaims.
Import Harness HarnessFacts Calls CallsFacts.

Lemma listen_ephemeral os_pick bound_now :
  valid_port os_pick = true → os_pick ∉ bound_now →
  listen 0 os_pick bound_now = Some os_pick.
Proof.
  intros Hv Hfree. unfold listen. simpl. rewrite Hv. simpl.
  by rewrite bool_decide_eq_false_2.
Qed.

(** A call that starts once the port is fixed: held off for good while an
    open server has the port, and otherwise bound to the port and bound to
    return it whenever it is resumed. *)
Lemma call_on_fixed_port es0 es os_pick :
  let w := Calls.run Calls.init es0 in
  let p := process w in
  let sid := length (servers p) in
  let w1 := startServer_listen os_pick w in
  forallb (λ st, negb (resumes sid st)) es = true →
  crashReporterPort p ≠ 0%Z →
  (crashReporterPort p ∈ bound_ports p → w1 = w) ∧
  ((crashReporterPort p ∉ bound_ports p) →
   servers (process w1)
     = servers p ++ [{| port := crashReporterPort p; listening := true |}] ∧
   let r := startServer_resume sid (Calls.run w1 es) in
   r.2 = Some (crashReporterPort p) ∧
   started (process r.1) = started p ∧
   crashReporterPort (process r.1) = crashReporterPort p).
Proof.
  intros w p sid w1 Hes Hnz.
  assert (Hinv : WorldInv w) by apply WorldInv_run, WorldInv_init.
  pose proof (fixed_port_valid es0 Hnz) as Hvalid. fold w p in Hvalid.
  pose proof (listen_fixed_port os_pick _ (bound_ports p) Hnz Hvalid) as Hl.
  split.
  - intros Hheld. rewrite decide_True in Hl by done.
    unfold w1, startServer_listen. fold p. by rewrite Hl.
  - intros Hfree. rewrite decide_False in Hl by done.
    destruct (listen_held os_pick w _ Hinv Hl) as (Hheld & Hsrv & Hc1 & Hs1).
    fold w1 p sid in Hheld, Hsrv, Hc1, Hs1.
    split; [done|].
    pose proof (held_run _ _ _ es Hes Hheld) as Hheld'.
    destruct (fixed_run w1 es) as [Hc2 Hs2]; [by rewrite Hc1|].
    destruct (resume_held _ _ _ Hheld') as [Hret Hif].
    assert (Hnz' : (crashReporterPort (process (Calls.run w1 es)) =? 0)%Z = false).
    { apply Z.eqb_neq. by rewrite Hc2, Hc1. }
    rewrite Hnz' in Hif. destruct Hif as [Hc3 Hs3].
    cbv zeta. split_and!; [done|congruence|congruence].
Qed.

(** C8 (amended).  A [startServer] call that starts while no port is fixed,
    the first call in particular, requests port 0, binds the ephemeral port
    the operating system assigns and returns it, a valid non-zero port, when
    it is resumed; if no port is fixed yet at that moment, its port becomes
    the fixed port.  A call that starts once the port is fixed requests that
    port: it binds it and returns it if no open server has it, and never
    binds nor returns if one has.  So the ports that calls which do not
    overlap return are one and the same port, not distinct ones. *)
Theorem C8_first_start_fixes_the_port
    (es0 es : list Step) (os_pick : Z) (ops : list Op) :
  let w := Calls.run Calls.init es0 in
  let p := process w in
  let sid := length (servers p) in
  let w1 := startServer_listen os_pick w in
  forallb (λ st, negb (resumes sid st)) es = true →
  (crashReporterPort p = 0%Z → valid_port os_pick = true →
   (os_pick ∉ bound_ports p) →
   servers (process w1) = servers p ++ [{| port := os_pick; listening := true |}] ∧
   (startServer_resume sid (Calls.run w1 es)).2 = Some os_pick ∧
   (1 ≤ os_pick ≤ 65535)%Z ∧
   (crashReporterPort (process (Calls.run w1 es)) = 0%Z →
    crashReporterPort (process (startServer_resume sid (Calls.run w1 es)).1)
      = os_pick)) ∧
  (crashReporterPort p ≠ 0%Z →
   (crashReporterPort p ∈ bound_ports p → w1 = w) ∧
   ((crashReporterPort p ∉ bound_ports p) →
    servers (process w1)
      = servers p ++ [{| port := crashReporterPort p; listening := true |}] ∧
    (startServer_resume sid (Calls.run w1 es)).2 = Some (crashReporterPort p))) ∧
  (∀ b, b ∈ returned_ports Harness.init ops →
        (1 ≤ b ≤ 65535)%Z ∧
        b = crashReporterPort (Harness.run Harness.init ops)) ∧
  (∀ a b, a ∈ returned_ports Harness.init ops →
          b ∈ returned_ports Harness.init ops → a = b).
Proof.
  intros w p sid w1 Hes.
  assert (Hinv : WorldInv w) by apply WorldInv_run, WorldInv_init.
  split_and!.
  - intros Hz Hv Hfree.
    pose proof (listen_ephemeral os_pick (bound_ports p) Hv Hfree) as Hl.
    rewrite <- Hz in Hl.
    destruct (listen_held os_pick w _ Hinv Hl) as (Hheld & Hsrv & _).
    fold w1 p sid in Hheld, Hsrv.
    pose proof (held_run _ _ _ es Hes Hheld) as Hheld'.
    destruct (resume_held _ _ _ Hheld') as [Hret Hif].
    split; [done|]. split; [done|]. split; [by apply valid_port_range|].
    intros Hz'. rewrite Hz' in Hif. simpl in Hif. by destruct Hif.
  - intros Hnz.
    destruct (call_on_fixed_port es0 es os_pick Hes Hnz) as [Hheld Hfree].
    split; [done|]. intros Hf. destruct (Hfree Hf) as (? & ? & _). done.
  - intros b Hb. by apply returned_ports_fixed in Hb as [? ?].
  - intros a b [-> _]%returned_ports_fixed [-> _]%returned_ports_fixed. done.
Qed.

Lemma C8_first_start_fixes_the_port_witness :
  (startServer_resume 0
     (Calls.run (startServer_listen 50000 Calls.init) [Listen 50001])).2
    = Some 50000%Z ∧
  (startServer_resume 1
     (Calls.run (startServer_listen 50001
                   (Calls.run Calls.init [Listen 50000; Resume 0; Clean])) [])).2
    = Some 50000%Z.
Proof.
  split.
  - pose proof (C8_first_start_fixes_the_port [] [Listen 50001] 50000 [] eq_refl)
      as (H & _).
    destruct (H eq_refl eq_refl) as (_ & Hret & _); [apply not_elem_of_nil|].
    exact Hret.
  - pose proof (C8_first_start_fixes_the_port
                  [Listen 50000; Resume 0; Clean] [] 50001 [] eq_refl)
      as (_ & H & _).
    destruct H as [_ H]; [done|].
    destruct H as [_ Hret]; [apply not_elem_of_nil|].
    exact Hret.
Defined.

(** C9, as the claim states it, fails: a later [startServer] call does not
    always bind its listener to the fixed port.  Made while the server of the
    first call is still open, its listen finds the port taken and the call
    binds nothing and never resumes; made before the first call has resumed,
    it still finds [crashReporterPort] at 0 and binds an ephemeral port of
    its own, which it returns. *)
Lemma C9_later_call_may_not_bind_the_fixed_port :
  (let w := Calls.run Calls.init [Listen 50000; Resume 0] in
   crashReporterPort (process w) = 50000%Z ∧
   startServer_listen 50001 w = w ∧
   startServer 50001 (process w) = None) ∧
  (let w := Calls.run Calls.init [Listen 50000; Listen 50001; Resume 0] in
   crashReporterPort (process w) = 50000%Z ∧
   bound_ports (process w) = [50000%Z; 50001%Z] ∧
   (startServer_resume 1 w).2 = Some 50001%Z).
Proof. cbv zeta. split_and!; vm_compute; reflexivity. Qed.

(** C9 (amended).  Across the [startServer] calls of one process, however
    they overlap, [crashReporter.start] is called at most once: it has been
    called exactly when a port is fixed, with that port in the submit URL,
    and the call that makes it is the one that resumes while
    [crashReporterPort] is still 0, which fixes the port it bound.  A call
    that starts once the port is fixed requests the fixed port: if no open
    server has it, the call binds its listener to it and, whenever it is
    resumed, returns it and leaves the fixed port and the calls made to the
    crash reporter as they were; if an open server has it, the call binds
    nothing and never resumes. *)
Theorem C9_crash_reporter_started_once
    (es0 es : list Step) (os_pick : Z) (resumed : nat) :
  let w := Calls.run Calls.init es0 in
  let p := process w in
  let sid := length (servers p) in
  let w1 := startServer_listen os_pick w in
  (length (started p) ≤ 1)%nat ∧
  (crashReporterPort p = 0%Z ↔ started p = []) ∧
  (crashReporterPort p ≠ 0%Z → started p = [start_options (crashReporterPort p)]) ∧
  (∀ b, (startServer_resume resumed w).2 = Some b →
     let p' := process (startServer_resume resumed w).1 in
     if (crashReporterPort p =? 0)%Z
     then started p' = [start_options b] ∧ crashReporterPort p' = b ∧ b ≠ 0%Z
     else started p' = started p ∧ crashReporterPort p' = crashReporterPort p) ∧
  (forallb (λ st, negb (resumes sid st)) es = true →
   crashReporterPort p ≠ 0%Z →
   (crashReporterPort p ∈ bound_ports p → w1 = w) ∧
   ((crashReporterPort p ∉ bound_ports p) →
    servers (process w1)
      = servers p ++ [{| port := crashReporterPort p; listening := true |}] ∧
    let r := startServer_resume sid (Calls.run w1 es) in
    r.2 = Some (crashReporterPort p) ∧
    started (process r.1) = started p ∧
    crashReporterPort (process r.1) = crashReporterPort p)).
Proof.
  intros w p sid w1.
  assert (Hinv : WorldInv w) by apply WorldInv_run, WorldInv_init.
  assert (Hresume : ∀ b, (startServer_resume resumed w).2 = Some b →
     let p' := process (startServer_resume resumed w).1 in
     if (crashReporterPort p =? 0)%Z
     then started p' = started p ++ [start_options b] ∧
          crashReporterPort p' = b ∧ valid_port b = true
     else started p' = started p ∧ crashReporterPort p' = crashReporterPort p).
  { intros b. unfold startServer_resume. fold p.
    destruct (decide _); [|done].
    destruct (servers p !! resumed) as [srv|] eqn:Hsrv; [|done].
    simpl. intros [= <-].
    destruct (crashReporterPort p =? 0)%Z; [|done].
    split_and!; [done..|]. by eapply (winv_ports _ Hinv). }
  destruct (winv_started _ Hinv) as [[Hport Hst]|[Hport Hst]];
    fold p in Hport, Hst.
  - rewrite Hst. split_and!; [simpl; lia|done|done| |].
    + intros b Hb. specialize (Hresume b Hb). rewrite Hport in *. simpl in *.
      rewrite Hst in Hresume. destruct Hresume as (? & ? & Hv%valid_port_range).
      split_and!; [done|done|lia].
    + intros _ Hnz. done.
  - rewrite Hst. split_and!; [simpl; lia| |done| |].
    + split; [done|]. intros [=].
    + intros b Hb. specialize (Hresume b Hb).
      destruct (Z.eqb_spec (crashReporterPort p) 0) as [|_]; [done|].
      by rewrite <- Hst.
    + intros Hes _. rewrite <- Hst.
      by apply (call_on_fixed_port es0 es os_pick).
Qed.

Lemma C9_crash_reporter_started_once_witness :
  let w := Calls.run Calls.init [Listen 50000; Resume 0; Clean] in
  let r := startServer_resume 1
             (Calls.run (startServer_listen 50001 w) [Clean; Listen 7]) in
  r.2 = Some 50000%Z ∧
  started (process r.1) = started (process w) ∧
  crashReporterPort (process r.1) = crashReporterPort (process w).
Proof.
  pose proof (C9_crash_reporter_started_once
                [Listen 50000; Resume 0; Clean] [Clean; Listen 7] 50001 0)
    as (_ & _ & _ & _ & H).
  destruct (H eq_refl) as [_ Hfree]; [done|].
  destruct Hfree as [_ Hret]; [apply not_elem_of_nil|].
  exact Hret.
Defined.

End CallClaims.


(** ** Facts about the helpers of the tests *)

Module HelperFacts.
Import Helpers.

(** *** Strings *)

Lemma append_nil_r (s : string) : s +:+ "" = s.
Proof.
  induction s as [|a s IH]; [done|].
  change (String a (s +:+ "") = String a s). by rewrite IH.
Qed.

Lemma append_assoc (s1 s2 s3 : string) : (s1 +:+ s2) +:+ s3 = s1 +:+ (s2 +:+ s3).
Proof.
  induction s1 as [|a s1 IH]; [done|].
  change (String a ((s1 +:+ s2) +:+ s3) = String a (s1 +:+ (s2 +:+ s3))).
  by rewrite IH.
Qed.

Lemma chunk_key_inj paramKey : Inj (=) (=) (chunk_key paramKey).
Proof.
  intros a b H. unfold chunk_key in H.
  apply (inj (String.app paramKey)) in H.
  apply (inj (String.app "__")) in H.
  by apply (inj pretty) in H.
Qed.

Lemma chunk_key_not_whole paramKey chunk : chunk_key paramKey chunk ≠ paramKey.
Proof.
  unfold chunk_key. intros H.
  rewrite <- (append_nil_r paramKey) in H at 2.
  apply (inj (String.app paramKey)) in H. done.
Qed.

Lemma truthy_Some v part :
  truthy v = Some part ↔ v = Some part ∧ part ≠ "".
Proof.
  unfold truthy. destruct v as [s|]; [case_decide as Hs|];
    (split; [intros Hv|intros [Hv Hne]]); try split; congruence.
Qed.

Lemma truthy_None v : truthy v = None ↔ v = None ∨ v = Some "".
Proof.
  unfold truthy. destruct v as [s|]; [case_decide as Hs|];
    (split; [intros Hv|intros [Hv|Hv]]);
    try congruence; try (right; congruence); by left.
Qed.

(** *** The loop of [stitchLongCrashParam] *)

(** While the loop runs it reads a field of the record at every chunk key. *)
Lemma stitch_from_running fuel crash paramKey chunk stitched :
  stitch_from fuel crash paramKey chunk stitched = None →
  ∀ i, (i < fuel)%nat → is_Some (crash !! chunk_key paramKey (chunk + i)).
Proof.
  revert chunk stitched.
  induction fuel as [|fuel IH]; intros chunk stitched Hrun i Hi; [lia|].
  simpl in Hrun.
  destruct (truthy (crash !! chunk_key paramKey chunk)) as [part|] eqn:Hpart;
    [|done].
  destruct i as [|i].
  - rewrite Nat.add_0_r. apply truthy_Some in Hpart as [-> _]. eauto.
  - replace (chunk + S i)%nat with (S chunk + i)%nat by lia.
    eapply IH; [done|lia].
Qed.

(** The record has too few fields for the loop to outlast its fuel. *)
Lemma stitch_from_stops crash paramKey chunk stitched :
  is_Some (stitch_from (S (size crash)) crash paramKey chunk stitched).
Proof.
  destruct (stitch_from _ _ _ _ _) as [r|] eqn:Hrun; [eauto|exfalso].
  pose proof (stitch_from_running _ _ _ _ _ Hrun) as Hkeys.
  set (keys := (λ i, chunk_key paramKey (chunk + i)) <$> seq 0 (S (size crash))).
  assert (Hnd : NoDup keys).
  { apply NoDup_fmap_2_strong; [|apply NoDup_seq].
    intros a b _ _ H. apply chunk_key_inj in H. lia. }
  assert (Hsub : (list_to_set keys : gset string) ⊆ dom crash).
  { intros k Hk. apply elem_of_list_to_set, list_elem_of_fmap in Hk
      as (i & -> & Hi%elem_of_seq).
    apply elem_of_dom, Hkeys. lia. }
  apply subseteq_size in Hsub.
  rewrite size_list_to_set, size_dom in Hsub by done.
  unfold keys in Hsub. rewrite length_fmap, length_seq in Hsub. lia.
Qed.

(** More fuel does not change what the loop returns. *)
Lemma stitch_from_more fuel extra crash paramKey chunk stitched r :
  stitch_from fuel crash paramKey chunk stitched = Some r →
  stitch_from (fuel + extra) crash paramKey chunk stitched = Some r.
Proof.
  revert chunk stitched.
  induction fuel as [|fuel IH]; intros chunk stitched H; [done|].
  simpl in *. destruct (truthy _); [by apply IH|done].
Qed.

(** What the loop returns over consecutive non-empty chunks that end in a
    falsy one. *)
Lemma stitch_from_parts fuel crash paramKey chunk stitched parts r :
  (∀ i part, parts !! i = Some part →
     crash !! chunk_key paramKey (chunk + i) = Some part ∧ part ≠ "") →
  truthy (crash !! chunk_key paramKey (chunk + length parts)) = None →
  stitch_from fuel crash paramKey chunk stitched = Some r →
  r = stitched +:+ concat_strings parts.
Proof.
  revert fuel chunk stitched.
  induction parts as [|part parts IH]; intros fuel chunk stitched Hparts Hend Hr.
  - simpl in Hend. rewrite Nat.add_0_r in Hend.
    destruct fuel as [|fuel]; [done|]. simpl in Hr. rewrite Hend in Hr.
    injection Hr as <-. simpl. by rewrite append_nil_r.
  - destruct fuel as [|fuel]; [done|]. simpl in Hr.
    destruct (Hparts 0%nat part eq_refl) as [Hhere Hne].
    rewrite Nat.add_0_r in Hhere. rewrite Hhere in Hr.
    assert (Ht : truthy (Some part) = Some part) by by apply truthy_Some.
    rewrite Ht in Hr.
    apply IH in Hr.
    + rewrite Hr. simpl. by rewrite append_assoc.
    + intros i p Hi. replace (S chunk + i)%nat with (chunk + S i)%nat by lia.
      by apply Hparts.
    + by replace (S chunk + length parts)%nat
        with (chunk + length (part :: parts))%nat by (simpl; lia).
Qed.

(** The loop reads the record at chunk keys only. *)
Lemma stitch_from_agree fuel crash1 crash2 paramKey chunk stitched :
  (∀ c, crash1 !! chunk_key paramKey c = crash2 !! chunk_key paramKey c) →
  stitch_from fuel crash1 paramKey chunk stitched
  = stitch_from fuel crash2 paramKey chunk stitched.
Proof.
  intros Hsame. revert chunk stitched.
  induction fuel as [|fuel IH]; intros chunk stitched; [done|].
  simpl. rewrite Hsame. destruct (truthy _); [apply IH|done].
Qed.

Lemma stitch_from_any_fuel fuel1 fuel2 crash paramKey chunk stitched r1 r2 :
  stitch_from fuel1 crash paramKey chunk stitched = Some r1 →
  stitch_from fuel2 crash paramKey chunk stitched = Some r2 →
  r1 = r2.
Proof.
  intros H1 H2.
  apply (stitch_from_more _ fuel2) in H1.
  apply (stitch_from_more _ fuel1) in H2.
  rewrite (Nat.add_comm fuel2 fuel1) in H2. congruence.
Qed.

(** The loop only appends to what it has collected. *)
Lemma stitch_from_extends fuel crash paramKey chunk stitched r :
  stitch_from fuel crash paramKey chunk stitched = Some r →
  ∃ more, r = stitched +:+ more.
Proof.
  revert chunk stitched.
  induction fuel as [|fuel IH]; intros chunk stitched H; [done|].
  simpl in H. destruct (truthy _) as [part|].
  - apply IH in H as [more ->]. exists (part +:+ more). apply append_assoc.
  - injection H as <-. exists "". by rewrite append_nil_r.
Qed.

(** *** The newest report *)

Lemma newest_of_snoc reports acc cur :
  newest_of reports acc → newest_of (reports ++ [cur]) (newer acc cur).
Proof.
  intros [[-> ->]|(i & r & Hi & -> & Hmax & Hfirst)]; right.
  - exists 0%nat, cur. split_and!; try done.
    + intros x Hx. apply list_elem_of_singleton in Hx as ->. lia.
    + intros j x Hj. lia.
  - unfold newer. simpl.
    destruct (Z.ltb_spec (date r) (date cur)) as [Hlt|Hge].
    + exists (length reports), cur. split_and!.
      * by rewrite lookup_app_r, Nat.sub_diag.
      * done.
      * intros x [Hx|Hx]%elem_of_app.
        -- apply Hmax in Hx. lia.
        -- apply list_elem_of_singleton in Hx as ->. lia.
      * intros j x Hj Hx. rewrite lookup_app_l in Hx by done.
        apply list_elem_of_lookup_2, Hmax in Hx. lia.
    + exists i, r. split_and!.
      * by apply lookup_app_l_Some.
      * done.
      * intros x [Hx|Hx]%elem_of_app; [by apply Hmax|].
        apply list_elem_of_singleton in Hx as ->. lia.
      * intros j x Hj Hx. apply (Hfirst j x Hj).
        apply lookup_lt_Some in Hi.
        rewrite lookup_app_l in Hx; [done|lia].
Qed.

Lemma newest_of_foldl reports :
  newest_of reports (newestReport reports).
Proof.
  unfold newestReport.
  induction reports as [|cur reports IH] using rev_ind; [by left|].
  rewrite foldl_app. simpl. by apply newest_of_snoc.
Qed.

(** *** [checkCrash] *)

Lemma head_filter_None {A} (P : A → Prop) `{∀ x, Decision (P x)} (l : list A) :
  head (filter P l) = None ↔ Forall (λ x, ¬ P x) l.
Proof.
  induction l as [|x l IH]; simpl.
  - split; [constructor|done].
  - rewrite filter_cons. destruct (decide (P x)) as [Hx|Hx]; simpl.
    + split; [done|]. intros [Hnx _]%Forall_cons. done.
    + rewrite IH. split; [by constructor|]. by intros [_ ?]%Forall_cons.
Qed.

Lemma has_comma_joined a b : has_comma (a +:+ "," +:+ b) = true.
Proof.
  induction a as [|c a IH]; [done|].
  change (has_comma (String c (a +:+ "," +:+ b)) = true).
  simpl. rewrite IH. apply orb_true_r.
Qed.

(** An array reads through [String(...)] as a string without a comma only
    when it holds just that string. *)
Lemma join_comma_is items expected :
  expected ≠ "" → has_comma expected = false →
  join_comma items = expected ↔ items = [expected].
Proof.
  intros Hne Hcomma. destruct items as [|item [|next rest]]; simpl.
  - split; [congruence|done].
  - split; congruence.
  - split; [|done]. intros H.
    rewrite <- H, has_comma_joined in Hcomma. done.
Qed.

Lemma js_String_is o expected :
  expected ≠ "undefined" → expected ≠ "" → has_comma expected = false →
  js_String o = expected ↔ reads_as o expected.
Proof.
  intros Hundef Hne Hcomma. unfold js_String, reads_as.
  destruct o as [[s|items]|].
  - split; [intros ->; by left|]. intros [[= ->]|[=]]. done.
  - rewrite join_comma_is by done.
    split; [intros ->; by right|]. intros [[=]|[= ->]]. done.
  - split; [congruence|]. intros [[=]|[=]].
Qed.

Lemma expectation_holds a b : expect_equal a b ≠ false ↔ a = b.
Proof.
  unfold expect_equal. case_bool_decide; split; try done.
Qed.

(** *** Waiting for a dump file *)

Lemma getDumps_elem existing files dump :
  dump ∈ getDumps existing files ↔
  dump ∈ files ∧ is_dmp dump = true ∧ dump ∉ existing.
Proof.
  unfold getDumps. rewrite list_elem_of_filter. tauto.
Qed.

Lemma existing_dumps_elem files0 dump :
  dump ∈ existing_dumps (Some files0) ↔ dump ∈ files0 ∧ is_dmp dump = true.
Proof.
  unfold existing_dumps. rewrite elem_of_list_to_set, list_elem_of_filter. tauto.
Qed.

Lemma dumpFileCreated_from_found join dir existing readdir left i path :
  dumpFileCreated_from join dir existing readdir left i = DumpFound path →
  ∃ k files dump rest,
    (k < left)%nat ∧ readdir (i + k)%nat = Some files ∧
    getDumps existing files = dump :: rest ∧ path = join dir dump ∧
    ∀ j, (j < k)%nat →
      ∃ earlier, readdir (i + j)%nat = Some earlier ∧ getDumps existing earlier = [].
Proof.
  revert i. induction left as [|left IH]; intros i H; [done|].
  simpl in H. destruct (readdir i) as [files|] eqn:Hi; [|done].
  destruct (getDumps existing files) as [|dump rest] eqn:Hd.
  - apply IH in H as (k & fs & d & r & Hk & Hr & Hg & Hp & Hearlier).
    exists (S k), fs, d, r. split_and!; [lia| |done|done|].
    + by replace (i + S k)%nat with (S i + k)%nat by lia.
    + intros [|j] Hj.
      * rewrite Nat.add_0_r. eauto.
      * replace (i + S j)%nat with (S i + j)%nat by lia. apply Hearlier. lia.
  - injection H as <-. exists 0%nat, files, dump, rest.
    rewrite Nat.add_0_r. split_and!; [lia|done..|]. intros j Hj. lia.
Qed.

Lemma dumpFileCreated_from_undefined join dir existing readdir left i :
  dumpFileCreated_from join dir existing readdir left i = DumpUndefined ↔
  ∀ k, (k < left)%nat →
    ∃ files, readdir (i + k)%nat = Some files ∧ getDumps existing files = [].
Proof.
  revert i. induction left as [|left IH]; intros i; simpl.
  - split; [|done]. intros _ k Hk. lia.
  - destruct (readdir i) as [files|] eqn:Hi.
    + destruct (getDumps existing files) as [|dump rest] eqn:Hd.
      * rewrite IH. split.
        -- intros H [|k] Hk.
           ++ rewrite Nat.add_0_r. eauto.
           ++ replace (i + S k)%nat with (S i + k)%nat by lia. apply H. lia.
        -- intros H k Hk. replace (S i + k)%nat with (i + S k)%nat by lia.
           apply H. lia.
      * split; [done|]. intros H.
        destruct (H 0%nat) as (fs & Hfs & Hemp); [lia|].
        rewrite Nat.add_0_r in Hfs. congruence.
    + split; [done|]. intros H.
      destruct (H 0%nat) as (fs & Hfs & _); [lia|].
      rewrite Nat.add_0_r in Hfs. congruence.
Qed.

(** *** [waitForCrashReport] and [checkReport] *)

Lemma waitForCrashReport_from_Some cr left tick n :
  waitForCrashReport_from cr left tick = Some n ↔
  ∃ k, (k < left)%nat ∧ n = S (tick + k) ∧
       is_Some (getLastCrashReport (cr (tick + k)%nat)) ∧
       ∀ j, (j < k)%nat → getLastCrashReport (cr (tick + j)%nat) = None.
Proof.
  revert tick. induction left as [|left IH]; intros tick; simpl.
  - split; [done|]. intros (k & Hk & _). lia.
  - destruct (getLastCrashReport (cr tick)) as [r|] eqn:Htick.
    + split.
      * intros [= <-]. exists 0%nat. rewrite Nat.add_0_r.
        split_and!; [lia|done|eauto|]. intros j Hj. lia.
      * intros (k & Hk & -> & Hsome & Hnone).
        destruct k as [|k]; [by rewrite Nat.add_0_r|].
        specialize (Hnone 0%nat). rewrite Nat.add_0_r in Hnone.
        rewrite Hnone in Htick; [done|lia].
    + rewrite IH. split.
      * intros (k & Hk & -> & Hsome & Hnone).
        exists (S k). replace (tick + S k)%nat with (S tick + k)%nat by lia.
        split_and!; [lia|done|done|].
        intros [|j] Hj; [by rewrite Nat.add_0_r|].
        replace (tick + S j)%nat with (S tick + j)%nat by lia. apply Hnone. lia.
      * intros (k & Hk & -> & Hsome & Hnone).
        destruct k as [|k].
        { rewrite Nat.add_0_r, Htick in Hsome. by destruct Hsome. }
        exists k. replace (S tick + k)%nat with (tick + S k)%nat by lia.
        split_and!; [lia|done|done|].
        intros j Hj. replace (S tick + j)%nat with (tick + S j)%nat by lia.
        apply Hnone. lia.
Qed.

Lemma waitForCrashReport_from_None cr left tick :
  waitForCrashReport_from cr left tick = None ↔
  ∀ j, (j < left)%nat → getLastCrashReport (cr (tick + j)%nat) = None.
Proof.
  revert tick. induction left as [|left IH]; intros tick; simpl.
  - split; [|done]. intros _ j Hj. lia.
  - destruct (getLastCrashReport (cr tick)) as [r|] eqn:Htick.
    + split; [done|]. intros H. specialize (H 0%nat).
      rewrite Nat.add_0_r, Htick in H. discriminate H. lia.
    + rewrite IH. split.
      * intros H [|j] Hj; [by rewrite Nat.add_0_r|].
        replace (tick + S j)%nat with (S tick + j)%nat by lia. apply H. lia.
      * intros H j Hj. replace (S tick + j)%nat with (tick + S j)%nat by lia.
        apply H. lia.
Qed.

Lemma waitForCrashReport_from_agree cr1 cr2 left tick :
  (∀ j, (j < left)%nat → cr1 (tick + j)%nat = cr2 (tick + j)%nat) →
  waitForCrashReport_from cr1 left tick = waitForCrashReport_from cr2 left tick.
Proof.
  revert tick. induction left as [|left IH]; intros tick H; [done|].
  simpl. pose proof (H 0%nat ltac:(lia)) as H0.
  rewrite Nat.add_0_r in H0. rewrite <- H0.
  destruct (getLastCrashReport (cr1 tick)); [done|].
  apply IH. intros j Hj. replace (S tick + j)%nat with (tick + S j)%nat by lia.
  apply H. lia.
Qed.

End HelperFacts.

(** ** Properties of the helpers of the tests *)

Module HelperProperties.
Import Helpers HelperFacts.

(** X1.  [stitchLongCrashParam] always returns: its loop ends within one
    iteration more than the record has fields, because the chunk keys it
    reads are distinct fields of the record; and however long the loop is
    let run, it returns the same string. *)
Theorem X1_stitch_returns (crash : StringFields) (paramKey : string) :
  ∃ stitched,
    stitchLongCrashParam crash paramKey = Some stitched ∧
    ∀ fuel r,
      truthy (crash !! paramKey) = None →
      stitch_from fuel crash paramKey 1 "" = Some r → r = stitched.
Proof.
  unfold stitchLongCrashParam.
  destruct (truthy (crash !! paramKey)) as [whole|] eqn:Hwhole.
  - exists whole. split; [done|]. intros fuel r [=].
  - destruct (stitch_from_stops crash paramKey 1 "") as [stitched Hs].
    exists stitched. split; [done|]. intros fuel r _ Hr.
    by eapply stitch_from_any_fuel.
Qed.

(** X2.  For a [paramKey] that is none of the names a plain object
    inherits: when [crash[paramKey]] is missing or empty and the fields
    [paramKey__1], [paramKey__2], ... hold non-empty parts up to a chunk that
    is missing or empty, [stitchLongCrashParam] returns the parts joined in
    order; whatever the record holds under later chunk keys is not read. *)
Theorem X2_stitch_joins_chunks
    (crash : StringFields) (paramKey : string) (parts : list string) :
  paramKey ∉ object_prototype_names →
  truthy (crash !! paramKey) = None →
  (∀ i part, parts !! i = Some part →
     crash !! chunk_key paramKey (1 + i) = Some part ∧ part ≠ "") →
  truthy (crash !! chunk_key paramKey (1 + length parts)) = None →
  stitchLongCrashParam crash paramKey = Some (concat_strings parts).
Proof.
  intros _ Hwhole Hparts Hend.
  unfold stitchLongCrashParam. rewrite Hwhole.
  destruct (stitch_from_stops crash paramKey 1 "") as [stitched Hs].
  rewrite Hs. f_equal.
  by apply (stitch_from_parts _ _ _ _ _ parts) in Hs.
Qed.

Lemma X2_stitch_joins_chunks_witness :
  stitchLongCrashParam
    {[ "long__1" := "abc"; "long__2" := "de"; "long__4" := "zz" ]} "long"
  = Some "abcde".
Proof.
  apply (X2_stitch_joins_chunks _ "long" ["abc"; "de"]).
  - intros H. repeat (apply elem_of_cons in H as [H|H]; [discriminate H|]).
    by apply elem_of_nil in H.
  - reflexivity.
  - intros [|[|i]] part [= <-]; split; done.
  - reflexivity.
Defined.

(** X3.  [stitchLongCrashParam] reads [crash[paramKey]] and the chunk
    fields of [paramKey] only: setting or removing any other field of the
    record does not change what it returns. *)
Theorem X3_stitch_reads_own_fields
    (crash : StringFields) (paramKey other : string) (v : string) :
  other ≠ paramKey →
  (∀ chunk, other ≠ chunk_key paramKey chunk) →
  stitchLongCrashParam (<[other := v]> crash) paramKey
    = stitchLongCrashParam crash paramKey ∧
  stitchLongCrashParam (delete other crash) paramKey
    = stitchLongCrashParam crash paramKey.
Proof.
  intros Hne Hchunks.
  assert (Hany : ∀ crash',
    crash' !! paramKey = crash !! paramKey →
    (∀ c, crash' !! chunk_key paramKey c = crash !! chunk_key paramKey c) →
    stitchLongCrashParam crash' paramKey = stitchLongCrashParam crash paramKey).
  { intros crash' Hwhole Hsame. unfold stitchLongCrashParam. rewrite Hwhole.
    destruct (truthy (crash !! paramKey)); [done|].
    destruct (stitch_from_stops crash' paramKey 1 "") as [r1 H1].
    destruct (stitch_from_stops crash paramKey 1 "") as [r2 H2].
    rewrite H1, H2. f_equal.
    rewrite (stitch_from_agree _ crash' crash) in H1 by done.
    by eapply stitch_from_any_fuel. }
  split; apply Hany.
  - by apply lookup_insert_ne.
  - intros c. apply lookup_insert_ne, Hchunks.
  - by apply lookup_delete_ne.
  - intros c. apply lookup_delete_ne, Hchunks.
Qed.

Lemma X3_stitch_reads_own_fields_witness :
  stitchLongCrashParam
    (<["ver" := "1.2.3"]> {[ "long__1" := "abc"; "long__2" := "de" ]}) "long"
    = stitchLongCrashParam {[ "long__1" := "abc"; "long__2" := "de" ]} "long" ∧
  stitchLongCrashParam
    (delete "ver" {[ "long__1" := "abc"; "long__2" := "de" ]}) "long"
    = stitchLongCrashParam {[ "long__1" := "abc"; "long__2" := "de" ]} "long".
Proof.
  apply X3_stitch_reads_own_fields; [done|].
  intros chunk H. unfold chunk_key in H.
  lazy beta iota zeta delta [String.append] in H. discriminate H.
Defined.

(** X4.  The [reduce] over [getUploadedReports()] yields no report for an
    empty list, and otherwise a report of the list whose date no other
    report's date exceeds, together with that date as timestamp; among
    reports of equal latest date it is the first in the list. *)
Theorem X4_newest_report_is_first_latest (reports : list Report) :
  (reports = [] → report (newestReport reports) = None) ∧
  (reports ≠ [] →
   ∃ i r,
     reports !! i = Some r ∧
     report (newestReport reports) = Some r ∧
     timestamp (newestReport reports) = Some (date r) ∧
     (∀ x, x ∈ reports → (date x ≤ date r)%Z) ∧
     (∀ j x, (j < i)%nat → reports !! j = Some x → (date x < date r)%Z)).
Proof.
  destruct (newest_of_foldl reports) as [[-> ->]|(i & r & Hi & -> & Hmax & Hfirst)].
  - split; [done|]. by intros [].
  - split; [intros ->; by rewrite lookup_nil in Hi|].
    intros _. exists i, r. by split_and!.
Qed.

Lemma X4_newest_report_is_first_latest_witness :
  ∃ i r,
    [ {| id := "a"; date := 5 |}; {| id := "b"; date := 9 |};
      {| id := "c"; date := 9 |} ] !! i = Some r ∧
    report (newestReport [ {| id := "a"; date := 5 |}; {| id := "b"; date := 9 |};
                           {| id := "c"; date := 9 |} ]) = Some r ∧
    timestamp (newestReport [ {| id := "a"; date := 5 |}; {| id := "b"; date := 9 |};
                              {| id := "c"; date := 9 |} ]) = Some (date r) ∧
    (∀ x, x ∈ [ {| id := "a"; date := 5 |}; {| id := "b"; date := 9 |};
                {| id := "c"; date := 9 |} ] → (date x ≤ date r)%Z) ∧
    (∀ j x, (j < i)%nat →
       [ {| id := "a"; date := 5 |}; {| id := "b"; date := 9 |};
         {| id := "c"; date := 9 |} ] !! j = Some x → (date x < date r)%Z).
Proof.
  apply (proj2 (X4_newest_report_is_first_latest
           [ {| id := "a"; date := 5 |}; {| id := "b"; date := 9 |};
             {| id := "c"; date := 9 |} ])).
  discriminate.
Defined.

(** X5.  [checkCrash] returns without throwing exactly when each of the
    fields prod, extra1, extra2, _productName and _companyName is the
    expected constant or the array that holds just that constant, the record
    has no field extra3, and its ver, process_type, platform and _version
    fields, read through [String(...)], equal the running Electron version,
    the expected process type, the platform and the application version.  A
    missing constant field never passes, since [String(undefined)] is none of
    the constants, and neither does an array of several values. *)
Theorem X5_checkCrash_passes_iff
    (env : TestEnv) (expectedProcessType : string) (fields : CrashInfo) :
  checkCrash env expectedProcessType fields = None ↔
  reads_as (fields !! "prod") "Electron" ∧
  js_String (fields !! "ver") = versions_electron env ∧
  js_String (fields !! "process_type") = expectedProcessType ∧
  js_String (fields !! "platform") = process_platform env ∧
  reads_as (fields !! "extra1") "extra1" ∧
  reads_as (fields !! "extra2") "extra2" ∧
  fields !! "extra3" = None ∧
  reads_as (fields !! "_productName") "Zombies" ∧
  reads_as (fields !! "_companyName") "Umbrella Corporation" ∧
  js_String (fields !! "_version") = app_getVersion env.
Proof.
  unfold checkCrash. rewrite fmap_None, head_filter_None.
  unfold expectations. rewrite !Forall_cons, Forall_nil. simpl.
  rewrite !expectation_holds.
  rewrite (js_String_is _ "Electron"), (js_String_is _ "extra1"),
    (js_String_is _ "extra2"), (js_String_is _ "Zombies"),
    (js_String_is _ "Umbrella Corporation") by done.
  assert (Hundef : is_undefined (fields !! "extra3") ≠ false
                   ↔ fields !! "extra3" = None).
  { destruct (fields !! "extra3"); simpl; split; done. }
  rewrite Hundef. tauto.
Qed.

(** X6.  [checkCrash] looks at its ten fields only: setting or removing any
    other field of the record changes neither whether it throws nor which
    expectation throws first. *)
Theorem X6_checkCrash_ignores_other_fields
    (env : TestEnv) (expectedProcessType : string) (fields : CrashInfo)
    (other : string) (v : JsValue) :
  other ∉ checked_fields →
  checkCrash env expectedProcessType (<[other := v]> fields)
    = checkCrash env expectedProcessType fields ∧
  checkCrash env expectedProcessType (delete other fields)
    = checkCrash env expectedProcessType fields.
Proof.
  intros Hother.
  assert (Hne : ∀ name, name ∈ checked_fields → other ≠ name).
  { intros name Hname ->. done. }
  unfold checkCrash, expectations.
  rewrite !lookup_insert_ne, !lookup_delete_ne
    by (apply Hne; unfold checked_fields; set_solver).
  done.
Qed.

Lemma X6_checkCrash_ignores_other_fields_witness :
  checkCrash {| versions_electron := "9.0.0"; process_platform := "darwin";
                app_getVersion := "0.1.0" |} "node"
             (<["newExtra" := JsArray ["newExtra"]]> ∅)
    = checkCrash {| versions_electron := "9.0.0"; process_platform := "darwin";
                    app_getVersion := "0.1.0" |} "node" ∅ ∧
  checkCrash {| versions_electron := "9.0.0"; process_platform := "darwin";
                app_getVersion := "0.1.0" |} "node"
             (delete "newExtra" ∅)
    = checkCrash {| versions_electron := "9.0.0"; process_platform := "darwin";
                    app_getVersion := "0.1.0" |} "node" ∅.
Proof.
  apply X6_checkCrash_ignores_other_fields.
  unfold checked_fields. intros H.
  repeat (apply elem_of_cons in H as [H|H]; [discriminate H|]).
  by apply elem_of_nil in H.
Defined.

(** X7.  When [dumpFileCreated] returns a path, it is [path.join] of the
    crashes directory and a file that one of its at most thirty directory
    listings contained, whose name ends in .dmp, that was not in the
    directory when the existing dumps were collected, and that is the first
    such file of that listing; every earlier listing was read without error
    and showed no new dump. *)
Theorem X7_dumpFileCreated_finds_new_dump
    (join : string → string → string) (crashesDir : string)
    (before : list string) (readdir : nat → option (list string)) (path : string) :
  dumpFileCreated join crashesDir (existing_dumps (Some before)) readdir
    = DumpFound path →
  ∃ i files dump,
    (i < 30)%nat ∧ readdir i = Some files ∧ path = join crashesDir dump ∧
    dump ∈ files ∧ is_dmp dump = true ∧ (dump ∉ before) ∧
    head (getDumps (existing_dumps (Some before)) files) = Some dump ∧
    ∀ j, (j < i)%nat →
      ∃ earlier, readdir j = Some earlier ∧
                 getDumps (existing_dumps (Some before)) earlier = [].
Proof.
  intros H. apply dumpFileCreated_from_found in H
    as (k & files & dump & rest & Hk & Hr & Hg & -> & Hearlier).
  exists k, files, dump.
  assert (Hd : dump ∈ getDumps (existing_dumps (Some before)) files).
  { rewrite Hg. left. }
  apply getDumps_elem in Hd as (Hin & Hdmp & Hnew).
  split_and!; try done.
  - intros Hb. apply Hnew, existing_dumps_elem. done.
  - by rewrite Hg.
Qed.

Lemma X7_dumpFileCreated_finds_new_dump_witness :
  ∃ i files dump,
    (i < 30)%nat ∧
    (λ n, if decide (n = 0%nat) then Some ["a.dmp"; "log.txt"]
          else Some ["a.dmp"; "b.txt"; "c.dmp"]) i = Some files ∧
    "dir/c.dmp" = (λ a b, a +:+ "/" +:+ b) "dir" dump ∧
    dump ∈ files ∧ is_dmp dump = true ∧ (dump ∉ ["a.dmp"; "log.txt"]) ∧
    head (getDumps (existing_dumps (Some ["a.dmp"; "log.txt"])) files) = Some dump ∧
    ∀ j, (j < i)%nat →
      ∃ earlier,
        (λ n, if decide (n = 0%nat) then Some ["a.dmp"; "log.txt"]
              else Some ["a.dmp"; "b.txt"; "c.dmp"]) j = Some earlier ∧
        getDumps (existing_dumps (Some ["a.dmp"; "log.txt"])) earlier = [].
Proof.
  apply (X7_dumpFileCreated_finds_new_dump (λ a b, a +:+ "/" +:+ b) "dir"
           ["a.dmp"; "log.txt"]
           (λ n, if decide (n = 0%nat) then Some ["a.dmp"; "log.txt"]
                 else Some ["a.dmp"; "b.txt"; "c.dmp"])).
  vm_compute. reflexivity.
Defined.

(** X8.  [dumpFileCreated] returns [undefined] exactly when all thirty
    directory listings were read without error and none showed a new dump
    file; it never polls the directory more than thirty times. *)
Theorem X8_dumpFileCreated_gives_up_after_thirty
    (join : string → string → string) (crashesDir : string)
    (existing : gset string) (readdir : nat → option (list string)) :
  dumpFileCreated join crashesDir existing readdir = DumpUndefined ↔
  ∀ i, (i < 30)%nat →
    ∃ files, readdir i = Some files ∧ getDumps existing files = [].
Proof.
  unfold dumpFileCreated. rewrite dumpFileCreated_from_undefined. done.
Qed.

(** X9.  [waitForCrashReport] asks for the last crash report at most ten
    times: it returns after query [n] exactly when that query is among the
    first ten and is the first to show a report, and it throws exactly when
    none of the first ten queries shows one. *)
Theorem X9_waitForCrashReport_polls_ten_times (cr : Reporter) :
  (∀ n, waitForCrashReport cr = Some n ↔
        (1 ≤ n ≤ 10)%nat ∧
        is_Some (getLastCrashReport (cr (n - 1)%nat)) ∧
        ∀ j, (j < n - 1)%nat → getLastCrashReport (cr j) = None) ∧
  (waitForCrashReport cr = None ↔
   ∀ j, (j < 10)%nat → getLastCrashReport (cr j) = None).
Proof.
  unfold waitForCrashReport. split.
  - intros n. rewrite waitForCrashReport_from_Some. simpl. split.
    + intros (k & Hk & -> & Hsome & Hnone).
      replace (S k - 1)%nat with k by lia. split_and!; [lia|lia|done|done].
    + intros ([H1 H10] & Hsome & Hnone). exists (n - 1)%nat.
      split_and!; [lia|lia|done|done].
  - by rewrite waitForCrashReport_from_None.
Qed.

(** X10.  [checkReport] makes at most thirteen queries to the crash
    reporter: two crash reporters that answer the first thirteen queries
    alike get the same verdict. *)
Theorem X10_checkReport_reads_thirteen_answers
    (cr1 cr2 : Reporter) (reportId : string) :
  (∀ i, (i < 13)%nat → cr1 i = cr2 i) →
  checkReport cr1 reportId = checkReport cr2 reportId.
Proof.
  intros Hsame. unfold checkReport, waitForCrashReport.
  rewrite (waitForCrashReport_from_agree cr1 cr2)
    by (intros j Hj; apply Hsame; simpl; lia).
  destruct (waitForCrashReport_from cr2 10 0) as [t|] eqn:Ht; [|done].
  apply waitForCrashReport_from_Some in Ht as (k & Hk & -> & _).
  simpl. rewrite !Hsame by lia. done.
Qed.

Lemma X10_checkReport_reads_thirteen_answers_witness :
  checkReport Server.recorded Server.reportId
  = checkReport
      (λ n, if decide (n < 13)%nat then Server.recorded n else Server.silent n)
      Server.reportId.
Proof.
  apply X10_checkReport_reads_thirteen_answers.
  intros i Hi. by rewrite decide_True.
Defined.

(** X11.  Against a crash reporter whose answers do not change while it is
    asked, [checkReport] passes exactly when there is a last crash report,
    its id is the report id, the list of uploaded reports is not empty and
    the id of its first entry is the report id. *)
Theorem X11_checkReport_steady (view : ReporterView) (reportId : string) :
  checkReport (Lifecycle.steady view) reportId = CheckPassed ↔
  ∃ last first rest,
    getLastCrashReport view = Some last ∧ id last = reportId ∧
    getUploadedReports view = first :: rest ∧ id first = reportId.
Proof.
  unfold checkReport, waitForCrashReport, Lifecycle.steady. simpl.
  destruct (getLastCrashReport view) as [last|] eqn:Hlast; simpl.
  - unfold expect_equal.
    destruct (getUploadedReports view) as [|first rest] eqn:Hup.
    + case_bool_decide; simpl; split; try done; intros (?&?&?&?&?&?&?); done.
    + do 2 case_bool_decide; simpl; split; try done.
      * intros _. by exists last, first, rest.
      * intros (?&?&?&?&?&?&?). simplify_eq.
      * intros (?&?&?&?&?&?&?). simplify_eq.
      * intros (?&?&?&?&?&?&?). simplify_eq.
  - split; [done|]. intros (?&?&?&?&?&?&?). done.
Qed.

(** X16.  For a [paramKey] that is none of the names a plain object
    inherits, [stitchLongCrashParam] returns the empty string exactly when the
    parameter is not in the record at all: [crash[paramKey]] is missing or
    empty and so is the first chunk [paramKey__1]. *)
Theorem X16_stitch_empty_iff_absent (crash : StringFields) (paramKey : string) :
  paramKey ∉ object_prototype_names →
  stitchLongCrashParam crash paramKey = Some "" ↔
  truthy (crash !! paramKey) = None ∧
  truthy (crash !! chunk_key paramKey 1) = None.
Proof.
  intros _. unfold stitchLongCrashParam.
  destruct (truthy (crash !! paramKey)) as [whole|] eqn:Hwhole.
  - apply truthy_Some in Hwhole as [_ Hne].
    split; [congruence|]. by intros [? _].
  - simpl. destruct (truthy (crash !! chunk_key paramKey 1)) as [part|] eqn:Hpart.
    + split; [|by intros [_ ?]]. intros H. exfalso.
      apply stitch_from_extends in H as [more H].
      apply truthy_Some in Hpart as [_ Hne].
      destruct part; [done|discriminate H].
    + done.
Qed.

Lemma X16_stitch_empty_iff_absent_witness :
  stitchLongCrashParam {[ "long__2" := "de" ]} "long" = Some "" ↔
  truthy (({[ "long__2" := "de" ]} : StringFields) !! "long") = None ∧
  truthy (({[ "long__2" := "de" ]} : StringFields) !! chunk_key "long" 1) = None.
Proof.
  apply X16_stitch_empty_iff_absent.
  intros H. repeat (apply elem_of_cons in H as [H|H]; [discriminate H|]).
  by apply elem_of_nil in H.
Defined.

End HelperProperties.

(** ** Facts about the effects of one request *)

Module LifecycleFacts.
Import Server ServerFacts Lifecycle.

Lemma handler_trace_app req tr1 tr2 :
  handler_trace req (tr1 ++ tr2) = handler_trace req tr1 ++ handler_trace req tr2.
Proof. apply filter_app. Qed.

Lemma handler_trace_own req tr :
  Forall (λ e, request_of e = Some req) tr → handler_trace req tr = tr.
Proof.
  induction 1 as [|e tr He _ IH]; [done|].
  unfold handler_trace in *. by rewrite filter_cons_True, IH.
Qed.

Lemma handler_trace_other req tr :
  Forall (λ e, request_of e ≠ Some req) tr → handler_trace req tr = [].
Proof.
  induction 1 as [|e tr He _ IH]; [done|].
  unfold handler_trace in *. by rewrite filter_cons_False, IH.
Qed.

Lemma handler_trace_resolves req crash ls :
  handler_trace req (map (λ p, ResolveCalled p crash) ls) = [].
Proof.
  apply handler_trace_other, Forall_forall.
  intros e (p & -> & _)%list_elem_of_fmap. done.
Qed.

(** A callback that adds nothing to the request's own effects and leaves
    its closure alone leaves the request where it stands. *)
Lemma stage_frame req s s' extra :
  crashes s' = crashes s ++ extra →
  ((length (crashes s) ≤ req)%nat → (length (crashes s') ≤ req)%nat) →
  handler_trace req (trace s') = handler_trace req (trace s) →
  inflight s' !! req = inflight s !! req →
  stage req s → stage req s'.
Proof.
  intros Hc Hlen Htr Hin. unfold stage. rewrite Htr, Hin, Hc.
  intros [(Hle & Hown & Hnone)|(fields & Hlog & Hcases)].
  - left. rewrite <- Hc. auto.
  - right. exists fields. split; [by apply lookup_app_l_Some|done].
Qed.

Lemma stage_parse req s error fields :
  stage req s → stage req (parseCallback error fields s).1.
Proof.
  intros Hst. destruct (decide (req = length (crashes s))) as [->|Hne].
  - destruct Hst as [(_ & Hown & Hnone)|(f & Hlog & _)].
    2:{ apply lookup_lt_Some in Hlog. lia. }
    right. exists fields. unfold parseCallback.
    destruct error as [message|]; simpl.
    + split; [by rewrite lookup_app_r, Nat.sub_diag|].
      left. exists message. split; [|done].
      rewrite handler_trace_app, Hown. simpl.
      apply handler_trace_own. by repeat constructor.
    + split; [by rewrite lookup_app_r, Nat.sub_diag|].
      right. left. split; [|by left; apply lookup_insert_eq].
      rewrite handler_trace_app, Hown. simpl.
      apply handler_trace_own. by repeat constructor.
  - apply (stage_frame req s _ [fields]); try done.
    + unfold parseCallback. by destruct error.
    + unfold parseCallback. destruct error; simpl; rewrite length_app; simpl; lia.
    + unfold parseCallback.
      destruct error; simpl; rewrite handler_trace_app;
        rewrite (handler_trace_other req [_; _]), app_nil_r; try done;
        repeat constructor; simpl; congruence.
    + unfold parseCallback. destruct error; simpl; [done|].
      by apply lookup_insert_ne.
Qed.

Lemma stage_flush req s r : stage req s → stage req (flushCallback r s).
Proof.
  intros Hst. unfold flushCallback.
  destruct (inflight s !! r) as [[f rid|]|] eqn:Hr; try done.
  destruct (decide (req = r)) as [->|Hne].
  - unfold stage in *. simpl. rewrite lookup_insert_eq. rewrite Hr in Hst.
    destruct Hst as [(_ & _ & ?)|(fields & Hlog & Hcases)]; [done|].
    right. exists fields. split; [done|].
    destruct Hcases as [(m & _ & ?)|[(Hown & Hin)|[(m & _ & ?)|(_ & ?)]]];
      try done.
    right. left. split; [done|]. right.
    destruct Hin as [[= -> ->]|[=]]. done.
  - apply (stage_frame req s _ []); simpl; try done.
    + by rewrite app_nil_r.
    + by apply lookup_insert_ne.
Qed.

Lemma stage_resume req s r cr : stage req s → stage req (resumeCallback r cr s).
Proof.
  intros Hst. unfold resumeCallback.
  destruct (inflight s !! r) as [[|f rid]|] eqn:Hr; try done.
  destruct (decide (req = r)) as [->|Hne].
  - unfold stage in Hst. rewrite Hr in Hst.
    destruct Hst as [(_ & _ & ?)|(fields & Hlog & Hcases)]; [done|].
    destruct Hcases as [(m & _ & ?)|[(Hown & Hin)|[(m & _ & ?)|(_ & ?)]]];
      try done.
    destruct Hin as [[=]|[= -> ->]].
    right. exists fields. destruct (checkReport cr reportId) as [|message].
    + rewrite emit_unfold. simpl. split; [done|].
      right. right. right. split; [|apply lookup_delete_eq].
      rewrite !handler_trace_app, handler_trace_resolves, Hown, app_nil_r.
      rewrite (handler_trace_own r [SocketDestroyed r]),
        (handler_trace_own r [Emitted r fields]) by by repeat constructor.
      done.
    + simpl. split; [done|].
      right. right. left. exists message. split; [|apply lookup_delete_eq].
      rewrite handler_trace_app, Hown.
      rewrite (handler_trace_own r [_]); [done|]. by repeat constructor.
  - destruct (checkReport cr rid) as [|message].
    + rewrite emit_unfold. apply (stage_frame req s _ []); simpl; try done.
      * by rewrite app_nil_r.
      * rewrite !handler_trace_app, handler_trace_resolves.
        rewrite (handler_trace_other req [_]), (handler_trace_other req [_]);
          [by rewrite !app_nil_r|..]; repeat constructor; simpl; congruence.
      * by apply lookup_delete_ne.
    + apply (stage_frame req s _ []); simpl; try done.
      * by rewrite app_nil_r.
      * rewrite handler_trace_app, (handler_trace_other req [_]);
          [by rewrite app_nil_r|]. repeat constructor; simpl; congruence.
      * by apply lookup_delete_ne.
Qed.

Lemma stage_step req s e : stage req s → stage req (step s e).
Proof.
  intros Hst. destruct e as [error fields|r|r cr|]; simpl.
  - by apply stage_parse.
  - by apply stage_flush.
  - by apply stage_resume.
  - apply (stage_frame req s _ []); simpl; try done. by rewrite app_nil_r.
Qed.

Lemma stage_run req s es : stage req s → stage req (run s es).
Proof.
  revert s. induction es as [|e es IH]; intros s Hst; simpl; [done|].
  by apply IH, stage_step.
Qed.

End LifecycleFacts.

(** ** Properties of the server and of the harness beyond the claims *)

Module ServerProperties.
Import Server ServerFacts Lifecycle LifecycleFacts.

Lemma own_effect_elem req e tr :
  request_of e = Some req → e ∈ tr ↔ e ∈ handler_trace req tr.
Proof.
  intros He. unfold handler_trace. rewrite list_elem_of_filter. tauto.
Qed.

(** X12.  Whatever callbacks run in whatever order, the effects of one
    request are always one of five sequences: none (not decoded yet); pushed
    and thrown (failed decode); pushed and answered (waiting for its flush
    callback to start or resume); pushed, answered and stopped by a rejected
    self-check; pushed, answered, socket destroyed and emitted.  So a request
    is answered at most once and only after a successful decode, a failed
    decode is never answered, and a socket is destroyed at most once and only
    after its request was answered and its self-check passed. *)
Theorem X12_request_lifecycle (es : list Event) (req : nat) :
  let s := run init es in
  stage req s ∧
  (∀ message response, Threw req message ∈ trace s →
     Responded req response ∉ trace s) ∧
  (SocketDestroyed req ∈ trace s →
     Responded req (res_end reportId) ∈ trace s ∧
     (∀ message, CheckRejected req message ∉ trace s) ∧
     ∃ fields, Emitted req fields ∈ trace s ∧ getCrashes s !! req = Some fields).
Proof.
  intros s.
  assert (Hst : stage req s).
  { apply stage_run. left. simpl. split_and!; [lia|done|done]. }
  split; [done|].
  unfold stage in Hst. simpl in Hst.
  split.
  - intros message response Hthrew Hresp.
    apply (own_effect_elem req) in Hthrew; [|done].
    apply (own_effect_elem req) in Hresp; [|done].
    destruct Hst as [(_ & Hown & _)|(fields & _ &
      [(m & Hown & _)|[(Hown & _)|[(m & Hown & _)|(Hown & _)]]])];
      rewrite Hown in Hthrew, Hresp;
      repeat (apply elem_of_cons in Hthrew as [Hthrew|Hthrew]; [try done|]);
      try (by apply elem_of_nil in Hthrew);
      repeat (apply elem_of_cons in Hresp as [Hresp|Hresp]; [try done|]);
      by apply elem_of_nil in Hresp.
  - intros Hsd. apply (own_effect_elem req) in Hsd; [|done].
    destruct Hst as [(_ & Hown & _)|(fields & Hlog &
      [(m & Hown & _)|[(Hown & _)|[(m & Hown & _)|(Hown & _)]]])];
      rewrite Hown in Hsd;
      repeat (apply elem_of_cons in Hsd as [Hsd|Hsd]; [try done|]);
      try (by apply elem_of_nil in Hsd).
    split_and!.
    + apply (own_effect_elem req); [done|]. rewrite Hown. set_solver.
    + intros message Hrej. apply (own_effect_elem req) in Hrej; [|done].
      rewrite Hown in Hrej.
      repeat (apply elem_of_cons in Hrej as [Hrej|Hrej]; [try done|]).
      by apply elem_of_nil in Hrej.
    + exists fields. split; [|done].
      apply (own_effect_elem req); [done|]. rewrite Hown. set_solver.
Qed.

(** X17.  A rejected self-check loses no waiter: after an upload whose
    report self-check threw, every waiter that was listening is still
    pending, and the next upload whose self-check passes resolves each of
    them with its own record. *)
Theorem X17_rejected_check_keeps_waiters
    (es : list Event) (fields1 fields2 : Fields) (cr1 cr2 : Reporter)
    (message : string) (p : nat) :
  let s := run init es in
  let s1 := upload None fields1 cr1 s in
  let s2 := upload None fields2 cr2 s1 in
  checkReport cr1 reportId = CheckThrew message →
  checkReport cr2 reportId = CheckPassed →
  p ∈ listeners s →
  resolution p s1 = None ∧ p ∈ listeners s1 ∧
  resolution p s2 = Some fields2 ∧
  getCrashes s2 = getCrashes s ++ [fields1; fields2].
Proof.
  intros s s1 s2 Hthrew Hpass Hp.
  assert (Hinv : Inv s) by apply Inv_run, Inv_init.
  assert (Hsusp : ∀ t fields, listeners_ok t →
    let t2 := flushCallback (length (crashes t)) (parseCallback None fields t).1 in
    inflight t2 !! length (crashes t) = Some (Checking fields reportId) ∧
    listeners t2 = listeners t ∧ promises t2 = promises t ∧ listeners_ok t2).
  { intros t fields Hok.
    destruct (parseCallback_ok t fields) as (_ & Hl1 & Hp1 & Hin1 & _).
    destruct (flushCallback_flushing _ _ _ _ Hin1) as (_ & Hl2 & Hp2 & _ & Hin2).
    cbv zeta. split_and!; [done|by rewrite Hl2|by rewrite Hp2|].
    apply (listeners_ok_step _ (Flushed _)),
          (listeners_ok_step _ (Parsed None fields)), Hok. }
  destruct (Hsusp s fields1 (inv_listeners _ Hinv)) as (Hin & Hl & Hpr & Hok).
  destruct (resumeCallback_checking _ _ _ _ cr1 Hin Hok) as [_ Hres].
  rewrite Hthrew in Hres. cbv zeta in Hres.
  change (resumeCallback (length (crashes s)) cr1
            (flushCallback (length (crashes s)) (parseCallback None fields1 s).1))
    with s1 in Hres.
  destruct Hres as (_ & Hpr1 & Hl1).
  assert (Hinv1 : Inv s1) by apply Inv_run, Hinv.
  assert (Hp1 : p ∈ listeners s1) by by rewrite Hl1, Hl.
  split_and!.
  - unfold resolution. by rewrite (proj2 (inv_listeners _ Hinv1) p Hp1).
  - done.
  - destruct (Hsusp s1 fields2 (inv_listeners _ Hinv1)) as (Hin2 & Hl2 & _ & Hok2).
    destruct (resumeCallback_checking _ _ _ _ cr2 Hin2 Hok2) as [_ Hres2].
    rewrite Hpass in Hres2. cbv zeta in Hres2.
    change (resumeCallback (length (crashes s1)) cr2
              (flushCallback (length (crashes s1)) (parseCallback None fields2 s1).1))
      with s2 in Hres2.
    destruct Hres2 as (_ & Hres2 & _).
    apply Hres2. by rewrite Hl2.
  - unfold getCrashes, s2, s1, upload. rewrite !run_crashes. simpl.
    by rewrite <- app_assoc.
Qed.

Lemma X17_rejected_check_keeps_waiters_witness :
  let s := run init [Wait] in
  let s1 := upload None (Some ∅) silent s in
  let s2 := upload None (Some electron_crash) recorded s1 in
  resolution 0 s1 = None ∧ 0%nat ∈ listeners s1 ∧
  resolution 0 s2 = Some (Some electron_crash) ∧
  getCrashes s2 = getCrashes s ++ [Some ∅; Some electron_crash].
Proof.
  apply (X17_rejected_check_keeps_waiters [Wait] (Some ∅) (Some electron_crash)
           silent recorded "No crash report available" 0).
  - reflexivity.
  - reflexivity.
  - simpl. left.
Defined.

End ServerProperties.

Module HarnessProperties.
Import Harness HarnessFacts.

Lemma listening_ports (l : list HttpServer) (fixed : Z) :
  (∀ i srv, l !! i = Some srv → port srv = fixed) →
  (∀ i srv, l !! i = Some srv → listening srv = true → S i = length l) →
  port <$> filter (λ srv, listening srv = true) l = [] ∨
  port <$> filter (λ srv, listening srv = true) l = [fixed].
Proof.
  intros Hport Hlast.
  destruct l as [|x l _] using rev_ind; [by left|].
  assert (Hclosed : filter (λ srv, listening srv = true) l = []).
  { destruct (filter _ l) as [|srv rest] eqn:Hf; [done|exfalso].
    assert (Hsrv : srv ∈ filter (λ srv, listening srv = true) l)
      by (rewrite Hf; left).
    apply list_elem_of_filter in Hsrv as [Hon [i Hi]%list_elem_of_lookup_1].
    pose proof (lookup_lt_Some _ _ _ Hi).
    apply (lookup_app_l_Some _ [x]) in Hi.
    apply Hlast in Hi; [|done]. rewrite length_app in Hi. simpl in Hi. lia. }
  rewrite filter_app, Hclosed. simpl.
  rewrite filter_cons, filter_nil.
  destruct (decide (listening x = true)); [right|by left].
  simpl. f_equal. apply (Hport (length l)).
  by rewrite lookup_app_r, Nat.sub_diag.
Qed.

Lemma run_port_valid ops :
  crashReporterPort (run init ops) = 0%Z ∨
  valid_port (crashReporterPort (run init ops)) = true.
Proof.
  assert (H : ∀ p, crashReporterPort p = 0%Z ∨ valid_port (crashReporterPort p) = true →
                   crashReporterPort (run p ops) = 0%Z ∨
                   valid_port (crashReporterPort (run p ops)) = true).
  { induction ops as [|op ops IH]; intros p Hp; simpl; [done|].
    apply IH. destruct op as [os_pick|]; simpl.
    - destruct (startServer os_pick p) as [[p' b]|] eqn:Hstart; simpl; [|done].
      apply startServer_port in Hstart as (-> & Hb & _).
      right. by apply valid_port_range.
    - unfold cleanup. simpl.
      by destruct (close_all_fields (afterTest p) p) as (-> & _). }
  apply H. by left.
Qed.

(** A start on a process with no open listener and a fixed port returns
    that port and leaves the crash reporter alone. *)
Lemma startServer_on_fixed os_pick p :
  bound_ports p = [] →
  valid_port (crashReporterPort p) = true →
  ∃ p', startServer os_pick p = Some (p', crashReporterPort p) ∧
        crashReporterPort p' = crashReporterPort p ∧
        started p' = started p.
Proof.
  intros Hfree Hvalid.
  assert (Hnz : (crashReporterPort p =? 0)%Z = false).
  { apply Z.eqb_neq. apply valid_port_range in Hvalid. lia. }
  unfold startServer, listen. rewrite Hfree, Hnz, Hvalid. simpl.
  rewrite ?Hnz. eauto.
Qed.

(** X13.  When [startServer] calls do not overlap (each has returned, or
    hangs for good, before the next call or [cleanup] runs), then in every
    state they and [cleanup] reach at most one server of the process is
    listening, and it listens on the fixed port. *)
Theorem X13_one_listener_on_the_fixed_port (ops : list Op) :
  let p := run init ops in
  bound_ports p = [] ∨ bound_ports p = [crashReporterPort p].
Proof.
  intros p.
  assert (Hinv : ProcessInv p) by apply ProcessInv_run, ProcessInv_init.
  apply listening_ports.
  - intros i srv Hi. by apply (pinv_ports _ Hinv i).
  - apply (pinv_last _ Hinv).
Qed.



(** X15.  When every [startServer] call is followed by [cleanup] before the
    next one, as [afterEach(cleanup)] arranges, every call returns, and all
    of them return the port the operating system assigned to the first,
    whatever it would have assigned to the later ones. *)
Theorem X15_start_cleanup_cycles (first : Z) (later : list Z) :
  valid_port first = true →
  returned_ports init
    (concat ((λ os_pick, [StartServer os_pick; Cleanup]) <$> (first :: later)))
  = replicate (S (length later)) first.
Proof.
  intros Hvalid.
  assert (Hcycle : ∀ picks p,
    ProcessInv p → bound_ports p = [] → crashReporterPort p = first →
    returned_ports p
      (concat ((λ os_pick, [StartServer os_pick; Cleanup]) <$> picks))
    = replicate (length picks) first).
  { induction picks as [|c picks IH]; intros p Hinv Hfree Hcrp; [done|].
    destruct (startServer_on_fixed c p Hfree) as (p' & Hs & Hcrp' & _);
      [by rewrite Hcrp|].
    simpl. rewrite Hs. simpl. rewrite Hcrp. f_equal.
    assert (Hinv' : ProcessInv p') by by eapply ProcessInv_startServer.
    apply IH.
    - by apply ProcessInv_cleanup.
    - apply bound_ports_closed. intros i srv. by apply cleanup_closes_all.
    - unfold cleanup. simpl.
      destruct (close_all_fields (afterTest p') p') as (-> & _). congruence. }
  assert (Hfirst : ∃ p', startServer first init = Some (p', first) ∧
                         crashReporterPort p' = first).
  { unfold startServer, listen. simpl. rewrite Hvalid. simpl. eauto. }
  destruct Hfirst as (p' & Hs & Hcrp').
  change (concat ((λ os_pick, [StartServer os_pick; Cleanup]) <$> first :: later))
    with (StartServer first :: Cleanup ::
          concat ((λ os_pick, [StartServer os_pick; Cleanup]) <$> later)).
  simpl. rewrite Hs. simpl. f_equal.
  assert (Hinv' : ProcessInv p').
  { eapply ProcessInv_startServer; [apply ProcessInv_init|done]. }
  apply Hcycle.
  - by apply ProcessInv_cleanup.
  - apply bound_ports_closed. intros i srv. by apply cleanup_closes_all.
  - unfold cleanup. simpl.
    destruct (close_all_fields (afterTest p') p') as (-> & _). congruence.
Qed.

Lemma X15_start_cleanup_cycles_witness :
  valid_port 50000 = true ∧
  returned_ports init
    (concat ((λ os_pick, [StartServer os_pick; Cleanup]) <$> [50000; 50001; 7]%Z))
  = replicate 3 50000%Z.
Proof.
  split; [reflexivity|].
  exact (X15_start_cleanup_cycles 50000 [50001; 7]%Z eq_refl).
Defined.

End HarnessProperties.
